(** * Changelog monitor: change detection and confirmation state machine

    A shallow embedding of [src/index.ts] (a Cloudflare Worker): the diff
    rendering [calculateDiff], the scheduled detection cycle
    [handleScheduled], the confirmation task of [POST /confirm/:postID],
    the retry helper [withRetry] and the publisher [postToX].

    JavaScript strings are modelled by [string]: a character stands for a
    code unit, and every operation used by the worker ([split], [join],
    [endsWith], [substring], [length], [===]) acts on code units alike.

    The store is a finite map that answers every call (it does not
    throw), time is the clock read by [Date.now()], and what the services
    outside answer is a parameter. The console log, the routing of
    requests to the two tasks and the OAuth signature of [postToX] are
    left out. *)

From Stdlib Require Import Ascii String.
From stdpp Require Import gmap strings list.

(** ** JavaScript string operations used by the worker *)

Module JsString.

Definition LF : ascii := "010"%char.

(** The one-character string ["\n"]. *)
Definition nl : string := String LF "".

(** [s.endsWith('\n')]. *)
Fixpoint endsWith_nl (s : string) : bool :=
  match s with
  | "" => false
  | String c s' =>
      match s' with
      | "" => Ascii.eqb c LF
      | String _ _ => endsWith_nl s'
      end
  end.

(** [s.split('\n')]: the pieces between line feeds; never the empty list
    (the empty string splits into one empty piece). *)
Fixpoint split_nl (s : string) : list string :=
  match s with
  | "" => [""]
  | String c s' =>
      if Ascii.eqb c LF then "" :: split_nl s'
      else match split_nl s' with
           | [] => [String c ""]
           | line :: rest => String c line :: rest
           end
  end.

(** [ls.join('\n')]. *)
Definition join_nl (ls : list string) : string := String.concat nl ls.

(** [true] when [s] is made of line feeds only. *)
Fixpoint only_nl (s : string) : bool :=
  match s with
  | "" => true
  | String c s' => Ascii.eqb c LF && only_nl s'
  end.

(** [s.replace(/\n+$/, "\n")]: the regular expression has no [g] flag and
    [$] matches at the end of the input only, so the leftmost match is
    the whole trailing run of line feeds, replaced by a single one. *)
Fixpoint replace_trailing_nl (s : string) : string :=
  match s with
  | "" => ""
  | String c s' =>
      if Ascii.eqb c LF && only_nl s' then nl
      else String c (replace_trailing_nl s')
  end.

(** [s.substring(0, n)]. *)
Definition substring_to (n : nat) (s : string) : string :=
  String.substring 0 n s.

(** [s.startsWith(p)]. *)
Fixpoint startsWith (p s : string) : bool :=
  match p with
  | "" => true
  | String c p' =>
      match s with
      | "" => false
      | String d s' => Ascii.eqb c d && startsWith p' s'
      end
  end.

(** White space removed by [trim], among the code units below 256. *)
Definition is_space (c : ascii) : bool :=
  let n := nat_of_ascii c in
  ((9 <=? n) && (n <=? 13)) || (n =? 32) || (n =? 160).

Fixpoint trimStart (s : string) : string :=
  match s with
  | "" => ""
  | String c s' => if is_space c then trimStart s' else s
  end.

Fixpoint trimEnd (s : string) : string :=
  match s with
  | "" => ""
  | String c s' =>
      match trimEnd s' with
      | "" => if is_space c then "" else String c ""
      | r => String c r
      end
  end.

(** [s.trim()]. *)
Definition trim (s : string) : string := trimEnd (trimStart s).

End JsString.
Import JsString.

(** ** The diff engine *)

(** A part of a jsdiff result ([Change] of the [diff] package): [added] and
    [removed] are [undefined] (here [false]) on an unchanged part. *)
Record Change := mkChange {
  value : string;
  added : bool;
  removed : bool
}.

(** The text returned by [calculateDiff] when no part is added or removed. *)
Definition NO_DIFF : string := "No textual differences found.".

(** The body of the branches [part.added] and [part.removed] of
    [calculateDiff]: every line of the part's value gets the mark, and the
    block is closed by a line feed. *)
Definition render_part (mark : string) (diffResult : string) (v : string) : string :=
  let diffResult :=
    diffResult +:+ join_nl (map (fun line => mark +:+ line) (split_nl v)) in
  if endsWith_nl v then
    if negb (endsWith_nl diffResult) then diffResult +:+ nl else diffResult
  else diffResult +:+ nl.

(** One call of the [forEach] callback, on the pair of the two variables
    [diffResult] and [hasChanges] that it updates. *)
Definition diff_step (acc : string * bool) (part : Change) : string * bool :=
  let '(diffResult, hasChanges) := acc in
  if added part then (render_part "+ " diffResult (value part), true)
  else if removed part then (render_part "- " diffResult (value part), true)
  else (diffResult, hasChanges).

(** [calculateDiff], for a given line differ [diffLines] (the function of
    that name of the [diff] package, which is not part of the repository). *)
Definition calculateDiff (diffLines : string -> string -> list Change)
    (oldText newText : string) : string :=
  let differences := diffLines oldText newText in
  let '(diffResult, hasChanges) := fold_left diff_step differences ("", false) in
  let diffResult := replace_trailing_nl diffResult in
  if negb hasChanges then NO_DIFF else diffResult.

(** Modelled from the spec: the line differ, [diffLines] of the [diff]
    package, which [calculateDiff] calls and which is not part of the
    repository. The design asks for a diff at line granularity whose
    result marks additions and removals. The function of the package,
    with its default options, cuts both texts into lines that keep their
    line feed, drops empty tokens, computes an edit script over the
    tokens (compared with [===]) and merges consecutive tokens of the same
    kind into one part. The package searches a shortest script with
    Myers' algorithm; the model below chooses between deleting the old
    token and inserting the new one by the cost of what follows, and may
    pick another script than the package among those for the same two
    texts. The properties of [calculateDiff] below rest on what the two
    have in common: the parts tell both texts, and between a text and
    itself no part is added or removed. *)
Module JsDiff.

(** [tokenize] of the line differ: a token is a line with its line feed;
    the text after the last line feed, when not empty, is the last token. *)
Fixpoint tokenize (s : string) : list string :=
  match s with
  | "" => []
  | String c s' =>
      if Ascii.eqb c LF then nl :: tokenize s'
      else match tokenize s' with
           | [] => [String c ""]
           | t :: ts => String c t :: ts
           end
  end.

Definition removeEmpty (ts : list string) : list string :=
  filter (fun t => t ≠ "") ts.

Inductive Op := Keep | Insert | Delete.

Definition Op_eqb (a b : Op) : bool :=
  match a, b with
  | Keep, Keep | Insert, Insert | Delete, Delete => true
  | _, _ => false
  end.

(** Number of inserted and deleted tokens of a script. *)
Fixpoint cost (es : list (Op * string)) : nat :=
  match es with
  | [] => 0
  | (Keep, _) :: es' => cost es'
  | _ :: es' => S (cost es')
  end.

(** An edit script from [xs] to [ys] for the comparison [equals] of
    tokens: tokens that compare equal are kept; otherwise the old token is
    deleted or the new one inserted, whichever leaves the cheaper script,
    the deletion when both cost the same. A kept token is written as the
    new text has it. *)
Fixpoint edit_script (equals : string -> string -> bool) (xs : list string) :
    list string -> list (Op * string) :=
  fix inner (ys : list string) : list (Op * string) :=
    match xs, ys with
    | [], _ => map (pair Insert) ys
    | _, [] => map (pair Delete) xs
    | x :: xs', y :: ys' =>
        if equals x y then (Keep, y) :: edit_script equals xs' ys'
        else
          let del := (Delete, x) :: edit_script equals xs' ys in
          let ins := (Insert, y) :: inner ys' in
          if cost del <=? cost ins then del else ins
    end.

Definition part_of (o : Op) (v : string) : Change :=
  match o with
  | Keep => mkChange v false false
  | Insert => mkChange v true false
  | Delete => mkChange v false true
  end.

Definition op_of (c : Change) : Op :=
  if added c then Insert else if removed c then Delete else Keep.

(** [buildValues]: consecutive tokens of one kind become one part. *)
Fixpoint buildValues (es : list (Op * string)) : list Change :=
  match es with
  | [] => []
  | (o, t) :: es' =>
      match buildValues es' with
      | c :: cs =>
          if Op_eqb o (op_of c) then part_of o (t +:+ value c) :: cs
          else part_of o t :: c :: cs
      | [] => [part_of o t]
      end
  end.

Definition lineDiff (equals : string -> string -> bool) (oldStr newStr : string) :
    list Change :=
  buildValues (edit_script equals (removeEmpty (tokenize oldStr))
                                  (removeEmpty (tokenize newStr))).

(** Modelled from the spec: [diffLines(oldStr, newStr)] of the [diff]
    package, missing from the repository; a diff at line granularity in
    which tokens are compared with [===]. *)
Definition diffLines : string -> string -> list Change := lineDiff String.eqb.


End JsDiff.

(** ** Records kept in the key-value store *)

Inductive Status := PENDING_CONFIRMATION | POSTED_TO_X | FAILED_TO_POST.

(** [interface PendingPostData]. *)
Record PendingPostData := mkPost {
  recap : string;
  diff : string;
  originalChangelogUrl : string;
  timestamp : string;
  status : Status
}.

Definition with_status (p : PendingPostData) (st : Status) : PendingPostData :=
  mkPost (recap p) (diff p) (originalChangelogUrl p) (timestamp p) st.

(** *** The JSON text of a record

    [JSON.stringify] on a [PendingPostData] object writes its five string
    properties in the order of their creation. [JSON_parse] reads such a
    text back; on any other text it yields [None], which stands for
    [JSON.parse] throwing (the worker stores no other text under the keys
    it parses). *)
Module Json.

Definition DQ : ascii := "034"%char.
Definition BSL : ascii := "092"%char.

Definition hex_digit (n : nat) : ascii :=
  nth n ["0"; "1"; "2"; "3"; "4"; "5"; "6"; "7"; "8"; "9";
         "a"; "b"; "c"; "d"; "e"; "f"]%char "0"%char.

Definition hex_value (c : ascii) : option nat :=
  let n := nat_of_ascii c in
  if (48 <=? n) && (n <=? 57) then Some (n - 48)
  else if (97 <=? n) && (n <=? 102) then Some (n - 87)
  else if (65 <=? n) && (n <=? 70) then Some (n - 55)
  else None.

(** [QuoteJSONString] on one code unit. *)
Definition escape_char (c : ascii) : string :=
  let n := nat_of_ascii c in
  if n =? 8 then String BSL "b"
  else if n =? 9 then String BSL "t"
  else if n =? 10 then String BSL "n"
  else if n =? 12 then String BSL "f"
  else if n =? 13 then String BSL "r"
  else if n =? 34 then String BSL (String DQ "")
  else if n =? 92 then String BSL (String BSL "")
  else if n <? 32 then
    String BSL ("u00" +:+ String (hex_digit (n / 16)) (String (hex_digit (n mod 16)) ""))
  else String c "".

Fixpoint escape (s : string) : string :=
  match s with
  | "" => ""
  | String c s' => escape_char c +:+ escape s'
  end.

Definition quote (s : string) : string :=
  String DQ (escape s +:+ String DQ "").

Definition push (c : ascii) (r : option (string * string)) : option (string * string) :=
  match r with
  | Some (s, rest) => Some (String c s, rest)
  | None => None
  end.

(** Reads a JSON string after its opening quote: the decoded string and
    the text after the closing quote. *)
Fixpoint read_string (s : string) : option (string * string) :=
  match s with
  | "" => None
  | String c s1 =>
      let n := nat_of_ascii c in
      if n =? 34 then Some ("", s1)
      else if n =? 92 then
        match s1 with
        | "" => None
        | String e s2 =>
            let m := nat_of_ascii e in
            if m =? 34 then push DQ (read_string s2)
            else if m =? 92 then push BSL (read_string s2)
            else if m =? 47 then push "/"%char (read_string s2)
            else if m =? 98 then push "008"%char (read_string s2)
            else if m =? 116 then push "009"%char (read_string s2)
            else if m =? 110 then push "010"%char (read_string s2)
            else if m =? 102 then push "012"%char (read_string s2)
            else if m =? 114 then push "013"%char (read_string s2)
            else if m =? 117 then
              match s2 with
              | String h1 (String h2 (String h3 (String h4 s3))) =>
                  match hex_value h1, hex_value h2, hex_value h3, hex_value h4 with
                  | Some 0, Some 0, Some a, Some b =>
                      push (ascii_of_nat (16 * a + b)) (read_string s3)
                  | _, _, _, _ => None
                  end
              | _ => None
              end
            else None
        end
      else if n <? 32 then None
      else push c (read_string s1)
  end.

(** The text [s] without its prefix [lit], when it starts with it. *)
Fixpoint expect (lit s : string) : option string :=
  match lit with
  | "" => Some s
  | String c lit' =>
      match s with
      | "" => None
      | String d s' => if Ascii.eqb c d then expect lit' s' else None
      end
  end.

Definition key (name : string) : string :=
  String DQ (name +:+ String DQ ":").

Definition status_text (st : Status) : string :=
  match st with
  | PENDING_CONFIRMATION => "PENDING_CONFIRMATION"
  | POSTED_TO_X => "POSTED_TO_X"
  | FAILED_TO_POST => "FAILED_TO_POST"
  end.

Definition status_of_text (s : string) : option Status :=
  if String.eqb s "PENDING_CONFIRMATION" then Some PENDING_CONFIRMATION
  else if String.eqb s "POSTED_TO_X" then Some POSTED_TO_X
  else if String.eqb s "FAILED_TO_POST" then Some FAILED_TO_POST
  else None.

Definition JSON_stringify (p : PendingPostData) : string :=
  "{" +:+ key "recap" +:+ quote (recap p) +:+
  "," +:+ key "diff" +:+ quote (diff p) +:+
  "," +:+ key "originalChangelogUrl" +:+ quote (originalChangelogUrl p) +:+
  "," +:+ key "timestamp" +:+ quote (timestamp p) +:+
  "," +:+ key "status" +:+ quote (status_text (status p)) +:+ "}".

(** A property [name] with a string value, after the text [sep]. *)
Definition read_property (sep name : string) (s : string) : option (string * string) :=
  s ← expect (sep +:+ key name +:+ String DQ "") s;
  read_string s.

Definition JSON_parse (s : string) : option PendingPostData :=
  '(r, s) ← read_property "{" "recap" s;
  '(d, s) ← read_property "," "diff" s;
  '(u, s) ← read_property "," "originalChangelogUrl" s;
  '(t, s) ← read_property "," "timestamp" s;
  '(x, s) ← read_property "," "status" s;
  st ← status_of_text x;
  if String.eqb s "}" then Some (mkPost r d u t st) else None.

End Json.
Import Json.

(** ** The worker's bindings and the world around it *)

(** [interface Env] without the store binding, which is part of [World].
    A variable that is not set is the empty string: every test of the
    worker on these variables is a test of truthiness. *)
Record Env := mkEnv {
  GEMINI_API_KEY : string;
  TELEGRAM_BOT_TOKEN : string;
  TELEGRAM_CHAT_ID : string;
  CHANGELOG_NAME : string;
  WORKER_URL : string;
  X_API_KEY : string;
  X_API_SECRET_KEY : string;
  X_ACCESS_TOKEN : string;
  X_ACCESS_TOKEN_SECRET : string;
  TARGET_CHANGELOG_URL : string;
  GEMINI_MODEL : string;
  GEMINI_TEMPERATURE : string;
  GEMINI_MAX_TOKENS : string
}.

(** Library and runtime functions that the worker calls and that are not
    part of the repository. *)
Record Platform := mkPlatform {
  (** [diffLines] of the [diff] package. *)
  diffLines : string -> string -> list Change;
  (** [NodeHtmlMarkdown.translate] with the worker's options; [None] when
      it throws. *)
  translate : string -> option string;
  (** The regular-expression fallback of [convertToMarkdown]. *)
  strip_tags : string -> string;
  (** [new Date(ms).toISOString()]. *)
  toISOString : N -> string;
  (** [isNaN(t) || t < 0 || t > 1] for [t = parseFloat(s)]. *)
  bad_temperature : string -> bool;
  (** [isNaN(n) || n < 1] for [n = parseInt(s)]. *)
  bad_max_tokens : string -> bool
}.

(** The texts sent to Telegram, by the template that builds them. *)
Inductive TelegramMessage :=
| MsgEnvInvalid (validationErrors : list string)
| MsgNewChangelog (name recap confirmationUrl : string)
| MsgMonitorError (message : string)
| MsgNotFound (postID : string)
| MsgAlreadyPublished (postID : string)
| MsgNotPending (postID : string)
| MsgPosted (postID : string)
| MsgPostFailed (postID reason : string)
| MsgUnexpected (postID message : string).

(** What the worker does to the world, one event per call. *)
Inductive Event :=
| EFetch (url : string)
| EGemini (diffText : string)
| ETelegram (botToken chatId : string) (message : TelegramMessage)
| EKvPut (key value : string) (expirationTtl : option N)
| ESleep (ms : N)
| EPostToX (postID recap : string)
| ETweet (tweetText : string).

(** An entry of the store: its value and, when it was written with an
    [expirationTtl], the time (in ms) at which it expires. *)
Record KVEntry := mkEntry {
  kv_value : string;
  kv_expiration : option N
}.

Record World := mkWorld {
  (** The namespace bound to [env.CHANGELOG_KV]. *)
  CHANGELOG_KV : gmap string KVEntry;
  (** [Date.now()], in milliseconds. *)
  now : N;
  (** The number of answers drawn from the outside so far. *)
  drawn : nat;
  (** The events so far, the latest first. *)
  trace : list Event
}.

Inductive HttpResult (A : Type) :=
| NetworkError (message : string)
| Response (ok : bool) (statusLine : string) (body : A).
Arguments NetworkError {A} message.
Arguments Response {A} ok statusLine body.

Inductive TwitterBody :=
| NotJson (message : string)
| TwitterResponse (data_id : option string).

(** The outside: what the [n]-th answer drawn is, for each service. A
    response that cannot be read ([text()] or [json()] throws) counts as
    a [NetworkError], except for the X API, where the body is read
    outside of the retried function. *)
Record Outside := mkOutside {
  changelog_site : nat -> HttpResult string;
  (** The body is [candidates[0].content.parts[0].text], when present. *)
  gemini_api : nat -> HttpResult (option string);
  (** The body is [responseData.ok]. *)
  telegram_api : nat -> HttpResult bool;
  x_api : nat -> HttpResult TwitterBody;
  randomUUID : nat -> string
}.

(** *** Asynchronous code as state passing

    An [async] function is a function of the world that returns its
    result and the world it leaves; [await] is the bind of this monad. *)

Definition Task (A : Type) : Type := World -> A * World.

#[global] Instance Task_ret : MRet Task := fun A (a : A) w => (a, w).

#[global] Instance Task_bind : MBind Task :=
  fun A B (k : A -> Task B) (m : Task A) w => let '(a, w') := m w in k a w'.

Inductive Result (A : Type) :=
| Ok (a : A)
| Throw (message : string).
Arguments Ok {A} a.
Arguments Throw {A} message.

Definition emit (e : Event) : Task unit :=
  fun w => (tt, mkWorld (CHANGELOG_KV w) (now w) (drawn w) (e :: trace w)).

(** The index of the next answer of the outside. *)
Definition draw : Task nat :=
  fun w => (drawn w, mkWorld (CHANGELOG_KV w) (now w) (S (drawn w)) (trace w)).

(** [await new Promise(resolve => setTimeout(resolve, delay))]. *)
Definition sleep (delay : N) : Task unit :=
  fun w => (tt, mkWorld (CHANGELOG_KV w) (now w + delay)%N (drawn w)
                        (ESleep delay :: trace w)).

(** *** The key-value store *)

Definition expired (t : N) (e : KVEntry) : bool :=
  match kv_expiration e with
  | Some at_ms => (at_ms <=? t)%N
  | None => false
  end.

(** [env.CHANGELOG_KV.get(key)]: [None] is [null]. *)
Definition KV_get (key : string) : Task (option string) :=
  fun w =>
    (match CHANGELOG_KV w !! key with
     | Some e => if expired (now w) e then None else Some (kv_value e)
     | None => None
     end, w).

(** [env.CHANGELOG_KV.put(key, value, { expirationTtl })], the time to
    live in seconds; without it the entry does not expire. *)
Definition KV_put (key value : string) (expirationTtl : option N) : Task unit :=
  fun w =>
    (tt, mkWorld (<[key := mkEntry value ((fun ttl => now w + 1000 * ttl)%N <$> expirationTtl)]>
                    (CHANGELOG_KV w))
                 (now w) (drawn w)
                 (EKvPut key value expirationTtl :: trace w)).

(** *** Retries *)

Record RetryConfig := mkRetry {
  maxAttempts : nat;
  initialDelay : N;
  maxDelay : N;
  backoffMultiplier : N
}.

Definition RETRY_CONFIG : RetryConfig := mkRetry 3 1000 10000 2.

(** [{ ...RETRY_CONFIG, maxAttempts: 2 }]. *)
Definition RETRY_TWICE : RetryConfig :=
  mkRetry 2 (initialDelay RETRY_CONFIG) (maxDelay RETRY_CONFIG)
          (backoffMultiplier RETRY_CONFIG).

Definition retry_delay (config : RetryConfig) (attempt : nat) : N :=
  N.min (initialDelay config * backoffMultiplier config ^ N.of_nat (attempt - 1))
        (maxDelay config).

(** The [for] loop of [withRetry] from [attempt] on, with [remaining]
    attempts left, [maxAttempts - attempt + 1] of them. *)
Fixpoint withRetry_from {A : Type} (fn : Task (Result A)) (config : RetryConfig)
    (remaining attempt : nat) (lastError : string) : Task (Result A) :=
  match remaining with
  | 0 => mret (Throw lastError)
  | S remaining' =>
      r ← fn;
      match r with
      | Ok a => mret (Ok a)
      | Throw error =>
          (if attempt <? maxAttempts config
           then sleep (retry_delay config attempt)
           else mret tt);;
          withRetry_from fn config remaining' (S attempt) error
      end
  end.

(** [withRetry(fn, config, operationName)]; with no attempt at all it
    throws its unset [lastError]. *)
Definition withRetry {A : Type} (fn : Task (Result A)) (config : RetryConfig) :
    Task (Result A) :=
  withRetry_from fn config (maxAttempts config) 1 "undefined".

(** ** The worker *)

(** Truthiness of a string: [""] is falsy. *)
Definition truthy (s : string) : bool := negb (String.eqb s "").

Definition MAX_TWEET_LENGTH : nat := 280.

(** The text that [postToX] sends for a recap. *)
Definition tweetText (recap : string) : string :=
  if MAX_TWEET_LENGTH <? String.length recap
  then substring_to (MAX_TWEET_LENGTH - 3) recap +:+ "..."
  else recap.

(** The result of [postToX]; [error] is only read when [success] is
    [false]. *)
Record PostResult := mkResult {
  success : bool;
  error : string
}.

(** The branch that a run of [handleScheduled] takes. *)
Inductive CycleOutcome :=
| EnvInvalid (validationErrors : list string)
| FirstVersionStored
| SameContent
| NoSubstantiveChange
| DiffProcessed (diff : string) (postId : option string)
| CycleFailed (message : string).

(** The result of the change detector, in the words of the design. *)
Inductive DetectorResult :=
| NoChange
| ChangeDetected (diffText : string)
| Error.

Definition detector_result (o : CycleOutcome) : DetectorResult :=
  match o with
  | FirstVersionStored | SameContent | NoSubstantiveChange => NoChange
  | DiffProcessed diff _ => ChangeDetected diff
  | EnvInvalid _ | CycleFailed _ => Error
  end.

(** The branch that a run of the confirmation task takes; [ParseFailed]
    is the task rejecting because [JSON.parse] throws. *)
Inductive ConfirmOutcome :=
| NotFound
| AlreadyPublished
| NotPending
| Published
| PublishFailed (reason : string)
| ParseFailed.

Definition currentKvKey : string := "latest_changelog_markdown".

Definition postKey (postID : string) : string := "post:" +:+ postID.

(** [new Date()] read as milliseconds. *)
Definition Date_now : Task N := fun w => (now w, w).

Definition requiredSecrets (env : Env) : list (string * string) :=
  [("GEMINI_API_KEY", GEMINI_API_KEY env);
   ("TELEGRAM_BOT_TOKEN", TELEGRAM_BOT_TOKEN env);
   ("TELEGRAM_CHAT_ID", TELEGRAM_CHAT_ID env);
   ("TARGET_CHANGELOG_URL", TARGET_CHANGELOG_URL env);
   ("X_API_KEY", X_API_KEY env);
   ("X_API_SECRET_KEY", X_API_SECRET_KEY env);
   ("X_ACCESS_TOKEN", X_ACCESS_TOKEN env);
   ("X_ACCESS_TOKEN_SECRET", X_ACCESS_TOKEN_SECRET env)].

Section Worker.

Variable P : Platform.
Variable net : Outside.

Definition validateEnv (env : Env) : list string :=
  let errors :=
    omap (fun '(secret, v) =>
            if truthy v then None
            else Some ("Missing required secret: " +:+ secret))
         (requiredSecrets env) in
  let errors :=
    if truthy (GEMINI_TEMPERATURE env) && bad_temperature P (GEMINI_TEMPERATURE env)
    then errors ++ ["Invalid GEMINI_TEMPERATURE: must be a number between 0 and 1"]
    else errors in
  if truthy (GEMINI_MAX_TOKENS env) && bad_max_tokens P (GEMINI_MAX_TOKENS env)
  then errors ++ ["Invalid GEMINI_MAX_TOKENS: must be a positive integer"]
  else errors.

(** The function retried by [sendTelegramMessage]. *)
Definition telegram_attempt (message : TelegramMessage) (botToken chatId : string) :
    Task (Result unit) :=
  i ← draw;
  emit (ETelegram botToken chatId message);;
  mret (match telegram_api net i with
        | NetworkError m => Throw m
        | Response ok statusLine responseData_ok =>
            if negb ok || negb responseData_ok
            then Throw ("Telegram API request failed: " +:+ statusLine)
            else Ok tt
        end).

(** [sendTelegramMessage]: what [withRetry] throws is caught and logged. *)
Definition sendTelegramMessage (message : TelegramMessage) (botToken chatId : string) :
    Task unit :=
  withRetry (telegram_attempt message botToken chatId) RETRY_TWICE;;
  mret tt.

(** [convertToMarkdown]: the fallback runs when the translation throws. *)
Definition convertToMarkdown (htmlContent : string) : string :=
  match translate P htmlContent with
  | Some markdown => markdown
  | None => strip_tags P htmlContent
  end.

(** The function retried for the changelog page. *)
Definition fetch_attempt (changelogUrl : string) : Task (Result string) :=
  i ← draw;
  emit (EFetch changelogUrl);;
  mret (match changelog_site net i with
        | NetworkError m => Throw m
        | Response ok statusLine body =>
            if negb ok then Throw ("Error fetching changelog: " +:+ statusLine)
            else Ok body
        end).

(** The function retried by [getGeminiRecap]. *)
Definition gemini_attempt (diffText : string) : Task (Result (option string)) :=
  i ← draw;
  emit (EGemini diffText);;
  mret (match gemini_api net i with
        | NetworkError m => Throw m
        | Response ok statusLine body =>
            if negb ok then Throw ("Gemini API request failed: " +:+ statusLine)
            else Ok body
        end).

(** [getGeminiRecap]: [None] is [null]. *)
Definition getGeminiRecap (diffText : string) (env : Env) : Task (option string) :=
  r ← withRetry (gemini_attempt diffText) RETRY_CONFIG;
  mret (match r with
        | Ok (Some text) => if truthy text then Some (trim text) else None
        | Ok None => None
        | Throw _ => None
        end).

(** The function retried by [postToX]. *)
Definition tweet_attempt (postID text : string) : Task (Result TwitterBody) :=
  i ← draw;
  emit (ETweet text);;
  mret (match x_api net i with
        | NetworkError m => Throw m
        | Response ok statusLine body =>
            if negb ok
            then Throw ("[" +:+ postID +:+ "] Twitter API error: " +:+ statusLine)
            else Ok body
        end).

(** [postToX]. The OAuth nonce is a drawn UUID; the signature and the
    [Authorization] header are not part of the model. *)
Definition postToX (postID recap : string) (env : Env) : Task PostResult :=
  emit (EPostToX postID recap);;
  let text := tweetText recap in
  draw;;
  r ← withRetry (tweet_attempt postID text) RETRY_TWICE;
  mret (match r with
        | Ok (TwitterResponse (Some id)) =>
            if truthy id then mkResult true ""
            else mkResult false "Unexpected Twitter API response"
        | Ok (TwitterResponse None) =>
            mkResult false "Unexpected Twitter API response"
        | Ok (NotJson m) => mkResult false ("Failed to post to X/Twitter: " +:+ m)
        | Throw m => mkResult false ("Failed to post to X/Twitter: " +:+ m)
        end).

(** The branch of [handleScheduled] that stores a pending post and asks
    for its confirmation; it returns the identifier of the post. *)
Definition create_pending_post (recap diff changelogUrl : string) (env : Env) :
    Task string :=
  i ← draw;
  let postId := randomUUID net i in
  t ← Date_now;
  let pendingPost :=
    mkPost recap diff changelogUrl (toISOString P t) PENDING_CONFIRMATION in
  KV_put (postKey postId) (JSON_stringify pendingPost) (Some 86400%N);;
  let confirmationUrl := WORKER_URL env +:+ "/confirm/" +:+ postId in
  sendTelegramMessage
    (MsgNewChangelog
       (if truthy (CHANGELOG_NAME env) then CHANGELOG_NAME env else changelogUrl)
       recap confirmationUrl)
    (TELEGRAM_BOT_TOKEN env) (TELEGRAM_CHAT_ID env);;
  mret postId.

(** [handleScheduled(_controller, env, _ctx)]; the result names the
    branch taken, which the worker itself only logs. *)
Definition handleScheduled (env : Env) : Task CycleOutcome :=
  let validationErrors := validateEnv env in
  if 0 <? length validationErrors then
    sendTelegramMessage (MsgEnvInvalid validationErrors)
      (TELEGRAM_BOT_TOKEN env) (TELEGRAM_CHAT_ID env);;
    mret (EnvInvalid validationErrors)
  else
    let changelogUrl := TARGET_CHANGELOG_URL env in
    fetched ← withRetry (fetch_attempt changelogUrl) RETRY_CONFIG;
    match fetched with
    | Throw message =>
        sendTelegramMessage (MsgMonitorError message)
          (TELEGRAM_BOT_TOKEN env) (TELEGRAM_CHAT_ID env);;
        mret (CycleFailed message)
    | Ok pageContent =>
        let markdownContent := convertToMarkdown pageContent in
        previousMarkdown ← KV_get currentKvKey;
        match previousMarkdown with
        | None =>
            KV_put currentKvKey markdownContent None;;
            mret FirstVersionStored
        | Some previousMarkdown =>
            if String.eqb previousMarkdown markdownContent then mret SameContent
            else
              let diff := calculateDiff (diffLines P) previousMarkdown markdownContent in
              outcome ←
                (if String.eqb diff NO_DIFF then mret NoSubstantiveChange
                 else
                   recap ← getGeminiRecap diff env;
                   match recap with
                   | Some recap =>
                       if truthy recap then
                         postId ← create_pending_post recap diff changelogUrl env;
                         mret (DiffProcessed diff (Some postId))
                       else mret (DiffProcessed diff None)
                   | None => mret (DiffProcessed diff None)
                   end);
              KV_put currentKvKey markdownContent None;;
              mret outcome
        end
    end.

(** *** The confirmation task of [POST /confirm/:postID]

    The task between its first and its last [await] of the store, in two
    parts: the tests on the stored text up to the call of [postToX], and
    the writes that follow the call. *)

(** From the result of [KV.get] to the result of [postToX]. *)
Definition confirm_check (postID : string) (env : Env) (storedData : option string) :
    Task (ConfirmOutcome + PendingPostData * PostResult) :=
  let notify m := sendTelegramMessage m (TELEGRAM_BOT_TOKEN env) (TELEGRAM_CHAT_ID env) in
  match storedData with
  | None => notify (MsgNotFound postID);; mret (inl NotFound)
  | Some storedData =>
      if negb (truthy storedData) then notify (MsgNotFound postID);; mret (inl NotFound)
      else
        match JSON_parse storedData with
        | None => mret (inl ParseFailed)
        | Some pendingPost =>
            match status pendingPost with
            | POSTED_TO_X =>
                notify (MsgAlreadyPublished postID);; mret (inl AlreadyPublished)
            | FAILED_TO_POST =>
                notify (MsgNotPending postID);; mret (inl NotPending)
            | PENDING_CONFIRMATION =>
                result ← postToX postID (recap pendingPost) env;
                mret (inr (pendingPost, result))
            end
        end
  end.

(** After [postToX]: the new status is written and the human is told.
    The [catch] around these calls is not reached: [postToX] returns its
    failures, [sendTelegramMessage] catches its own, and the store of the
    model does not throw. *)
Definition confirm_record (postID : string) (env : Env)
    (pendingPost : PendingPostData) (result : PostResult) : Task ConfirmOutcome :=
  let notify m := sendTelegramMessage m (TELEGRAM_BOT_TOKEN env) (TELEGRAM_CHAT_ID env) in
  if success result then
    KV_put (postKey postID) (JSON_stringify (with_status pendingPost POSTED_TO_X)) None;;
    notify (MsgPosted postID);;
    mret Published
  else
    KV_put (postKey postID) (JSON_stringify (with_status pendingPost FAILED_TO_POST)) None;;
    let reason :=
      if truthy (error result) then error result
      else "No specific error was provided." in
    notify (MsgPostFailed postID reason);;
    mret (PublishFailed reason).

(** The whole task, run without another task in between. *)
Definition confirm (postID : string) (env : Env) : Task ConfirmOutcome :=
  storedData ← KV_get (postKey postID);
  checked ← confirm_check postID env storedData;
  match checked with
  | inl outcome => mret outcome
  | inr (pendingPost, result) => confirm_record postID env pendingPost result
  end.

(** *** Two confirmation tasks at once

    A task gives way to other tasks where it awaits. The model lets it
    give way twice: while it awaits the store's answer to [get], and while
    it awaits [postToX]. *)

Inductive ConfirmPc :=
| AtStart
| Loaded (storedData : option string)
| Posted (pendingPost : PendingPostData) (result : PostResult)
| Finished (outcome : ConfirmOutcome).

Definition confirm_step (postID : string) (env : Env) (pc : ConfirmPc) : Task ConfirmPc :=
  match pc with
  | AtStart => storedData ← KV_get (postKey postID); mret (Loaded storedData)
  | Loaded storedData =>
      checked ← confirm_check postID env storedData;
      mret (match checked with
            | inl outcome => Finished outcome
            | inr (pendingPost, result) => Posted pendingPost result
            end)
  | Posted pendingPost result =>
      outcome ← confirm_record postID env pendingPost result;
      mret (Finished outcome)
  | Finished outcome => mret (Finished outcome)
  end.

(** Which of the two tasks runs next. *)
Inductive Turn := First | Second.

(** Two tasks for the same [postID], run in the order of [schedule]. *)
Fixpoint race (postID : string) (env : Env) (schedule : list Turn)
    (pcs : ConfirmPc * ConfirmPc) : Task (ConfirmPc * ConfirmPc) :=
  match schedule with
  | [] => mret pcs
  | First :: schedule' =>
      pc ← confirm_step postID env pcs.1;
      race postID env schedule' (pc, pcs.2)
  | Second :: schedule' =>
      pc ← confirm_step postID env pcs.2;
      race postID env schedule' (pcs.1, pc)
  end.

End Worker.

(** The calls of [postToX] in a trace. *)
Definition publisher_calls (tr : list Event) : list (string * string) :=
  omap (fun e => match e with EPostToX postID recap => Some (postID, recap) | _ => None end) tr.

(** The texts posted to the X API in a trace. *)
Definition tweets (tr : list Event) : list string :=
  omap (fun e => match e with ETweet text => Some text | _ => None end) tr.

(** The writes to the store in a trace. *)
Definition kv_writes (tr : list Event) : list (string * string * option N) :=
  omap (fun e => match e with EKvPut k v ttl => Some (k, v, ttl) | _ => None end) tr.

(** The messages sent to Telegram in a trace, one per request. *)
Definition telegrams (tr : list Event) : list TelegramMessage :=
  omap (fun e => match e with ETelegram _ _ m => Some m | _ => None end) tr.

(** ** Vocabulary of the properties *)

(** A line of a rendered diff that marks an addition or a removal. *)
Definition marked (line : string) : bool :=
  startsWith "+ " line || startsWith "- " line.

(** A part that [calculateDiff] renders. *)
Definition changed (part : Change) : bool := added part || removed part.

(** The old and the new text as a list of parts tells them: the old one
    is made of the parts that are not added, the new one of those that
    are not removed. *)
Definition old_text (parts : list Change) : string :=
  foldr (fun part acc => if added part then acc else value part +:+ acc) "" parts.

Definition new_text (parts : list Change) : string :=
  foldr (fun part acc => if removed part then acc else value part +:+ acc) "" parts.

(** A line differ is exact when its parts tell both texts, and quiet when
    it reports no change between a text and itself. *)
Definition exact_differ (differ : string -> string -> list Change) : Prop :=
  forall a b, old_text (differ a b) = a /\ new_text (differ a b) = b.

Definition quiet_differ (differ : string -> string -> list Change) : Prop :=
  forall a, existsb changed (differ a a) = false.

(** What holds of the two variables of [calculateDiff] between two calls
    of its callback: nothing is written before the first change, and the
    text starts with a mark from then on. *)
Definition diff_inv (acc : string * bool) : Prop :=
  (acc.2 = false /\ acc.1 = "") \/ (acc.2 = true /\ marked acc.1 = true).

(** The text of a list of tokens. *)
Definition text_of (ts : list string) : string := foldr String.append "" ts.

(** The old and the new token text that an edit script tells. *)
Definition script_old (es : list (JsDiff.Op * string)) : string :=
  foldr (fun '(o, t) acc =>
           match o with JsDiff.Insert => acc | _ => t +:+ acc end) "" es.

Definition script_new (es : list (JsDiff.Op * string)) : string :=
  foldr (fun '(o, t) acc =>
           match o with JsDiff.Delete => acc | _ => t +:+ acc end) "" es.

Definition edits (e : JsDiff.Op * string) : bool :=
  match e.1 with JsDiff.Keep => false | _ => true end.

(** *** What is observed of a world *)

Definition store (w : World) : gmap string KVEntry := CHANGELOG_KV w.
Definition written (w : World) : list (string * string * option N) := kv_writes (trace w).
Definition published (w : World) : list (string * string) := publisher_calls (trace w).
Definition tweeted (w : World) : list string := tweets (trace w).
Definition notified (w : World) : list TelegramMessage := telegrams (trace w).

(** A task keeps an observation when it leaves it as it found it. *)
Definition keeps {A B : Type} (obs : World -> B) (t : Task A) : Prop :=
  forall w, obs (t w).2 = obs w.

(** The record stored for a post, as the confirmation task reads it. *)
Definition stored_post (w : World) (postID : string) : option PendingPostData :=
  match (KV_get (postKey postID) w).1 with
  | Some storedData => if truthy storedData then JSON_parse storedData else None
  | None => None
  end.

(** An answer of the changelog site on which [fetch_attempt] throws. *)
Definition failed_answer {A : Type} (r : HttpResult A) : bool :=
  match r with
  | NetworkError _ => true
  | Response ok _ _ => negb ok
  end.

(** The requests for the changelog page in a trace. *)
Definition fetches (w : World) : list string :=
  omap (fun e => match e with EFetch url => Some url | _ => None end) (trace w).

(** *** Platforms, outsides and worlds used as examples *)

(** A platform with the line differ of the package; the page is taken as
    its own markdown. *)
Definition plain_platform : Platform :=
  mkPlatform JsDiff.diffLines (fun html => Some html) (fun html => html)
             (fun _ => "2024-04-05T00:00:00.000Z") (fun _ => false) (fun _ => false).


Definition example_env : Env :=
  mkEnv "gemini-key" "bot-token" "chat-id" "GLAPI Changelog"
        "https://changelog-monitor.example.workers.dev"
        "x-key" "x-secret" "x-token" "x-token-secret"
        "https://example.com/changelog" "gemini-2.0-flash" "0.6" "250".

(** The [n]-th identifier drawn: no two are the same. *)
Definition example_uuid (n : nat) : string :=
  "3f2a" +:+ String.concat "" (replicate n "0").

(** Every service answers, the changelog site with [page] and the
    summarizer with [recap]. *)
Definition all_up (page recap : string) : Outside :=
  mkOutside (fun _ => Response true "200 OK" page)
            (fun _ => Response true "200 OK" (Some recap))
            (fun _ => Response true "200 OK" true)
            (fun _ => Response true "201 Created" (TwitterResponse (Some "1790")))
            example_uuid.

(** The changelog site cannot be reached. *)
Definition site_down : Outside :=
  mkOutside (fun _ => NetworkError "fetch failed")
            (fun _ => Response true "200 OK" (Some "recap"))
            (fun _ => Response true "200 OK" true)
            (fun _ => Response true "201 Created" (TwitterResponse (Some "1790")))
            example_uuid.

Definition empty_world : World := mkWorld ∅ 0 0 [].


Definition example_post : PendingPostData :=
  mkPost "Version 2 adds dark mode." "+ dark mode" "https://example.com/changelog"
         "2024-04-05T00:00:00.000Z" PENDING_CONFIRMATION.

(** A world whose store holds [example_post] under the identifier
    ["3f2a"], written at time 0 with the time to live of a new post. *)
Definition world_with_post : World :=
  mkWorld {[ postKey "3f2a" := mkEntry (JSON_stringify example_post) (Some 86400000%N) ]}
          0 0 [].

(** *** Writes to the store *)

(** A task writes to the store only as [ok] allows. *)
Definition writes {A : Type} (ok : string * string * option N -> Prop) (t : Task A) : Prop :=
  forall w, exists new, written (t w).2 = new ++ written w /\ Forall ok new.

(** A write of the detection cycle: the snapshot, without a time to
    live, or a pending post with a time to live of a day. *)
Definition cycle_write (x : string * string * option N) : Prop :=
  let '(key, value, expirationTtl) := x in
  (key = currentKvKey /\ expirationTtl = None) \/
  (exists postId pendingPost,
     key = postKey postId /\ value = JSON_stringify pendingPost /\
     status pendingPost = PENDING_CONFIRMATION /\ expirationTtl = Some 86400%N).

(** A write of the confirmation task for [postID]: the post with its new
    status, without a time to live. *)
Definition confirm_write (postID : string) (x : string * string * option N) : Prop :=
  let '(key, value, expirationTtl) := x in
  key = postKey postID /\ expirationTtl = None /\
  exists pendingPost,
    value = JSON_stringify pendingPost /\
    (status pendingPost = POSTED_TO_X \/ status pendingPost = FAILED_TO_POST).

(** *** Tasks that run at once *)

(** The calls of the publisher that a task has still to make for what it
    has read: one when it has read a pending post and has not called the
    publisher yet. *)
Definition will_post (pc : ConfirmPc) : nat :=
  match pc with
  | Loaded (Some storedData) =>
      if truthy storedData then
        match JSON_parse storedData with
        | Some pendingPost =>
            match status pendingPost with
            | PENDING_CONFIRMATION => 1
            | _ => 0
            end
        | None => 0
        end
      else 0
  | _ => 0
  end.

(** The calls that a task may still make: one as long as it has not read
    the store. *)
Definition may_post (pc : ConfirmPc) : nat :=
  match pc with
  | AtStart => 1
  | _ => will_post pc
  end.

Definition started (pc : ConfirmPc) : bool :=
  match pc with
  | AtStart => false
  | _ => true
  end.

Definition finished (pc : ConfirmPc) : bool :=
  match pc with
  | Finished _ => true
  | _ => false
  end.

(** The world of [world_with_post] a day later, when the post has
    expired. *)
Definition world_after_expiry : World :=
  mkWorld (CHANGELOG_KV world_with_post) 86400000 0 [].

(** * Properties *)

(** ** Strings *)

Lemma append_nil (t : string) : "" +:+ t = t.
Proof. reflexivity. Qed.

Lemma append_cons (c : ascii) (s t : string) : String c s +:+ t = String c (s +:+ t).
Proof. reflexivity. Qed.

Lemma append_empty_r (s : string) : s +:+ "" = s.
Proof. induction s as [|c s IH]; [done | by rewrite append_cons, IH]. Qed.

Lemma append_assoc (a b c : string) : (a +:+ b) +:+ c = a +:+ (b +:+ c).
Proof. induction a as [|x a IH]; [done | by rewrite !append_cons, IH]. Qed.

Lemma split_nl_nonempty (s : string) : split_nl s <> [].
Proof.
  induction s as [|c s IH]; simpl; [done |].
  destruct (Ascii.eqb c LF); [done |].
  by destruct (split_nl s).
Qed.

Lemma marked_inv (s : string) :
  marked s = true ->
  exists c rest, s = String c (String " " rest) /\ (c = "+"%char \/ c = "-"%char).
Proof.
  unfold marked. intros H.
  destruct s as [|c [|d rest]]; cbn [startsWith] in H.
  - done.
  - by rewrite !andb_false_r in H.
  - rewrite !andb_true_r in H.
    apply orb_true_iff in H.
    destruct H as [H | H]; apply andb_true_iff in H; destruct H as [Hc Hd];
      apply Ascii.eqb_eq in Hc, Hd; subst; eauto.
Qed.

Lemma marked_intro (c : ascii) (rest : string) :
  c = "+"%char \/ c = "-"%char -> marked (String c (String " " rest)) = true.
Proof. by intros [-> | ->]. Qed.

Lemma marked_append (s t : string) : marked s = true -> marked (s +:+ t) = true.
Proof.
  intros H. destruct (marked_inv s H) as (c & rest & -> & Hc).
  rewrite !append_cons. by apply marked_intro.
Qed.

Lemma marked_replace_trailing_nl (s : string) :
  marked s = true -> marked (replace_trailing_nl s) = true.
Proof.
  intros H. destruct (marked_inv s H) as (c & rest & -> & Hc).
  destruct Hc as [-> | ->]; simpl; apply marked_intro; auto.
Qed.

Lemma marked_first_line (s : string) :
  marked s = true -> exists line, line ∈ split_nl s /\ marked line = true.
Proof.
  intros H. destruct (marked_inv s H) as (c & rest & -> & Hc).
  pose proof (split_nl_nonempty rest) as Hne.
  destruct (split_nl rest) as [|l ls] eqn:E; [done |].
  exists (String c (String " " l)). split.
  - destruct Hc as [-> | ->]; simpl; rewrite E; apply list_elem_of_here.
  - by apply marked_intro.
Qed.

Lemma marked_join (mark : string) (ls : list string) :
  marked mark = true -> ls <> [] ->
  marked (join_nl (map (fun line => mark +:+ line) ls)) = true.
Proof.
  intros Hm Hne. destruct ls as [|l ls]; [done |].
  unfold join_nl. simpl.
  destruct (map _ ls); [| apply marked_append]; by apply marked_append.
Qed.

(** ** The rendering of [calculateDiff] *)

Lemma marked_render_part (mark r v : string) :
  marked mark = true -> r = "" \/ marked r = true ->
  marked (render_part mark r v) = true.
Proof.
  intros Hm Hr. unfold render_part.
  assert (marked (r +:+ join_nl (map (fun line => mark +:+ line) (split_nl v))) = true)
    as H.
  { destruct Hr as [-> | Hr].
    - rewrite append_nil. apply marked_join; [done | apply split_nl_nonempty].
    - by apply marked_append. }
  destruct (endsWith_nl v); [destruct (negb _) |]; auto using marked_append.
Qed.

Lemma diff_step_inv (acc : string * bool) (part : Change) :
  diff_inv acc -> diff_inv (diff_step acc part).
Proof.
  destruct acc as [r h]. unfold diff_inv, diff_step. simpl. intros Hacc.
  assert (r = "" \/ marked r = true) as Hr by (destruct Hacc as [[_ ?] | [_ ?]]; auto).
  destruct (added part); [| destruct (removed part)]; simpl.
  - right. split; [done |]. by apply marked_render_part.
  - right. split; [done |]. by apply marked_render_part.
  - done.
Qed.

Lemma diff_step_flag (acc : string * bool) (part : Change) :
  (diff_step acc part).2 = acc.2 || changed part.
Proof.
  destruct acc as [r h]. unfold diff_step, changed. simpl.
  destruct (added part), (removed part); simpl; by rewrite ?orb_true_r, ?orb_false_r.
Qed.

Lemma fold_diff_inv (parts : list Change) (acc : string * bool) :
  diff_inv acc -> diff_inv (fold_left diff_step parts acc).
Proof.
  revert acc. induction parts as [|part parts IH]; intros acc Hacc; simpl; [done |].
  apply IH. by apply diff_step_inv.
Qed.

Lemma fold_diff_flag (parts : list Change) (acc : string * bool) :
  (fold_left diff_step parts acc).2 = acc.2 || existsb changed parts.
Proof.
  revert acc. induction parts as [|part parts IH]; intros acc; simpl.
  - by rewrite orb_false_r.
  - by rewrite IH, diff_step_flag, orb_assoc.
Qed.

(** Without a changed part the result is the fixed text. *)
Lemma calculateDiff_quiet (differ : string -> string -> list Change) (a b : string) :
  existsb changed (differ a b) = false -> calculateDiff differ a b = NO_DIFF.
Proof.
  intros H. unfold calculateDiff.
  pose proof (fold_diff_flag (differ a b) ("", false)) as Hflag.
  destruct (fold_left diff_step (differ a b) ("", false)) as [r h].
  simpl in Hflag. rewrite H in Hflag. by subst h.
Qed.

(** With a changed part the result starts with a mark. *)
Lemma calculateDiff_marked (differ : string -> string -> list Change) (a b : string) :
  existsb changed (differ a b) = true -> marked (calculateDiff differ a b) = true.
Proof.
  intros H. unfold calculateDiff.
  pose proof (fold_diff_flag (differ a b) ("", false)) as Hflag.
  pose proof (fold_diff_inv (differ a b) ("", false)) as Hinv.
  destruct (fold_left diff_step (differ a b) ("", false)) as [r h].
  simpl in Hflag. rewrite H in Hflag. subst h. simpl.
  destruct Hinv as [[? _] | [_ Hr]]; [by left | done |].
  by apply marked_replace_trailing_nl.
Qed.

Lemma unchanged_same_text (parts : list Change) :
  existsb changed parts = false -> old_text parts = new_text parts.
Proof.
  induction parts as [|part parts IH]; simpl; [done |].
  intros H. apply orb_false_iff in H. destruct H as [Hp Hs].
  unfold changed in Hp. apply orb_false_iff in Hp. destruct Hp as [-> ->].
  by rewrite IH.
Qed.

(** An exact differ reports a change between texts that differ. *)
Lemma exact_differ_changed (differ : string -> string -> list Change) (a b : string) :
  exact_differ differ -> a <> b -> existsb changed (differ a b) = true.
Proof.
  intros Hexact Hab. destruct (Hexact a b) as [Ha Hb].
  destruct (existsb changed (differ a b)) eqn:E; [done |].
  apply unchanged_same_text in E. congruence.
Qed.

(** ** The line differ is exact, and quiet on equal texts *)

Lemma text_of_tokenize (s : string) : text_of (JsDiff.tokenize s) = s.
Proof.
  induction s as [|c s IH]; simpl; [done |].
  destruct (Ascii.eqb c LF) eqn:E.
  - apply Ascii.eqb_eq in E. subst c. simpl. by rewrite IH.
  - destruct (JsDiff.tokenize s) as [|t ts]; simpl in *.
    + by rewrite <- IH.
    + by rewrite append_cons, IH.
Qed.

(** Two texts that differ have different lines. *)
Lemma tokenize_differ (a b : string) :
  a <> b <-> JsDiff.tokenize a <> JsDiff.tokenize b.
Proof.
  split.
  - intros Hab E. apply Hab. by rewrite <- (text_of_tokenize a), E, text_of_tokenize.
  - by intros Hab ->.
Qed.

Lemma text_of_removeEmpty (ts : list string) :
  text_of (JsDiff.removeEmpty ts) = text_of ts.
Proof.
  unfold JsDiff.removeEmpty.
  induction ts as [|t ts IH]; [done |].
  rewrite filter_cons. destruct (decide (t <> "")) as [Hne | He]; simpl.
  - by rewrite IH.
  - apply dec_stable in He. subst t. by rewrite IH.
Qed.

Lemma script_old_cons (o : JsDiff.Op) (t : string) (es : list (JsDiff.Op * string)) :
  script_old ((o, t) :: es) =
  match o with JsDiff.Insert => script_old es | _ => t +:+ script_old es end.
Proof. by destruct o. Qed.

Lemma script_new_cons (o : JsDiff.Op) (t : string) (es : list (JsDiff.Op * string)) :
  script_new ((o, t) :: es) =
  match o with JsDiff.Delete => script_new es | _ => t +:+ script_new es end.
Proof. by destruct o. Qed.

Lemma script_old_inserts (ys : list string) :
  script_old (map (pair JsDiff.Insert) ys) = "".
Proof. induction ys as [|y ys IH]; simpl; done. Qed.

Lemma script_new_inserts (ys : list string) :
  script_new (map (pair JsDiff.Insert) ys) = text_of ys.
Proof. induction ys as [|y ys IH]; simpl; [done | by rewrite IH]. Qed.

Lemma script_old_deletes (xs : list string) :
  script_old (map (pair JsDiff.Delete) xs) = text_of xs.
Proof. induction xs as [|x xs IH]; simpl; [done | by rewrite IH]. Qed.

Lemma script_new_deletes (xs : list string) :
  script_new (map (pair JsDiff.Delete) xs) = "".
Proof. induction xs as [|x xs IH]; simpl; done. Qed.

Lemma edit_script_texts (xs ys : list string) :
  script_old (JsDiff.edit_script String.eqb xs ys) = text_of xs /\
  script_new (JsDiff.edit_script String.eqb xs ys) = text_of ys.
Proof.
  revert ys. induction xs as [|x xs IHx]; intros ys.
  - destruct ys; simpl; [done |].
    split; [apply script_old_inserts | by rewrite script_new_inserts].
  - induction ys as [|y ys IHy].
    + simpl. split; [by rewrite script_old_deletes | apply script_new_deletes].
    + change (JsDiff.edit_script String.eqb (x :: xs) (y :: ys)) with
        (if String.eqb x y then (JsDiff.Keep, y) :: JsDiff.edit_script String.eqb xs ys
         else
           let del := (JsDiff.Delete, x) :: JsDiff.edit_script String.eqb xs (y :: ys) in
           let ins := (JsDiff.Insert, y) :: JsDiff.edit_script String.eqb (x :: xs) ys in
           if JsDiff.cost del <=? JsDiff.cost ins then del else ins).
      destruct (String.eqb_spec x y) as [<- | Hxy].
      * destruct (IHx ys) as [Ho Hn].
        by rewrite script_old_cons, script_new_cons, Ho, Hn.
      * cbv zeta.
        destruct (_ <=? _); rewrite script_old_cons, script_new_cons.
        -- destruct (IHx (y :: ys)) as [Ho Hn]. by rewrite Ho, Hn.
        -- destruct IHy as [Ho Hn]. by rewrite Ho, Hn.
Qed.

Lemma edit_script_same (xs : list string) :
  JsDiff.edit_script String.eqb xs xs = map (pair JsDiff.Keep) xs.
Proof.
  induction xs as [|x xs IH]; [done |].
  simpl. by rewrite String.eqb_refl, IH.
Qed.

Lemma op_of_part_of (o : JsDiff.Op) (v : string) : JsDiff.op_of (JsDiff.part_of o v) = o.
Proof. by destruct o. Qed.

Lemma Op_eqb_eq (a b : JsDiff.Op) : JsDiff.Op_eqb a b = true -> a = b.
Proof. by destruct a, b. Qed.

Lemma part_of_one_kind (o : JsDiff.Op) (v : string) :
  added (JsDiff.part_of o v) && removed (JsDiff.part_of o v) = false.
Proof. by destruct o. Qed.

(** No part is both added and removed. *)
Lemma buildValues_one_kind (es : list (JsDiff.Op * string)) :
  Forall (fun c => added c && removed c = false) (JsDiff.buildValues es).
Proof.
  induction es as [|[o t] es IH]; [by constructor |].
  simpl. destruct (JsDiff.buildValues es) as [|c cs].
  - repeat constructor. apply part_of_one_kind.
  - destruct (JsDiff.Op_eqb o (JsDiff.op_of c)).
    + inversion IH; subst. constructor; [apply part_of_one_kind | done].
    + constructor; [apply part_of_one_kind | done].
Qed.

Lemma buildValues_texts (es : list (JsDiff.Op * string)) :
  old_text (JsDiff.buildValues es) = script_old es /\
  new_text (JsDiff.buildValues es) = script_new es.
Proof.
  induction es as [|[o t] es [IHo IHn]]; [done |].
  pose proof (buildValues_one_kind es) as Hkind.
  simpl. destruct (JsDiff.buildValues es) as [|c cs].
  - simpl in *. rewrite <- IHo, <- IHn. by destruct o.
  - destruct (JsDiff.Op_eqb o (JsDiff.op_of c)) eqn:E.
    + apply Op_eqb_eq in E. subst o. rewrite <- IHo, <- IHn.
      inversion Hkind as [|? ? Hc _]; subst.
      unfold JsDiff.op_of. simpl.
      destruct (added c), (removed c); simpl; try done;
        by rewrite ?append_assoc.
    + rewrite <- IHo, <- IHn. by destruct o.
Qed.

Lemma buildValues_changed (es : list (JsDiff.Op * string)) :
  existsb changed (JsDiff.buildValues es) = existsb edits es.
Proof.
  induction es as [|[o t] es IH]; [done |].
  simpl. destruct (JsDiff.buildValues es) as [|c cs].
  - simpl in *. rewrite <- IH. by destruct o.
  - destruct (JsDiff.Op_eqb o (JsDiff.op_of c)) eqn:E.
    + apply Op_eqb_eq in E. subst o. rewrite <- IH.
      unfold JsDiff.op_of, edits, changed. simpl.
      destruct (added c), (removed c); simpl; done.
    + rewrite <- IH. by destruct o.
Qed.

Lemma keeps_unchanged (xs : list string) :
  existsb edits (map (pair JsDiff.Keep) xs) = false.
Proof. induction xs as [|x xs IH]; simpl; done. Qed.

Lemma diffLines_exact : exact_differ JsDiff.diffLines.
Proof.
  intros a b. unfold JsDiff.diffLines, JsDiff.lineDiff.
  destruct (buildValues_texts
              (JsDiff.edit_script String.eqb (JsDiff.removeEmpty (JsDiff.tokenize a))
                                  (JsDiff.removeEmpty (JsDiff.tokenize b))))
    as [Ho Hn].
  destruct (edit_script_texts (JsDiff.removeEmpty (JsDiff.tokenize a))
                              (JsDiff.removeEmpty (JsDiff.tokenize b)))
    as [Ho' Hn'].
  rewrite Ho, Hn, Ho', Hn', !text_of_removeEmpty, !text_of_tokenize. done.
Qed.

Lemma diffLines_quiet : quiet_differ JsDiff.diffLines.
Proof.
  intros a. unfold JsDiff.diffLines, JsDiff.lineDiff.
  by rewrite edit_script_same, buildValues_changed, keeps_unchanged.
Qed.

(** ** The JSON text of a record is read back *)

Lemma expect_append (lit s : string) : expect lit (lit +:+ s) = Some s.
Proof.
  induction lit as [|c lit IH]; [done |].
  rewrite append_cons. simpl. by rewrite Ascii.eqb_refl.
Qed.

Lemma read_escape_char (c : ascii) (tail : string) :
  read_string (escape_char c +:+ tail) = push c (read_string tail).
Proof. destruct c as [[] [] [] [] [] [] [] []]; reflexivity. Qed.

Lemma read_string_escape (s rest : string) :
  read_string (escape s +:+ String DQ rest) = Some (s, rest).
Proof.
  induction s as [|c s IH]; [done |].
  change (escape (String c s)) with (escape_char c +:+ escape s).
  by rewrite append_assoc, read_escape_char, IH.
Qed.

Lemma read_property_quote (sep name v rest : string) :
  read_property sep name (sep +:+ key name +:+ quote v +:+ rest) = Some (v, rest).
Proof.
  unfold read_property, quote.
  replace (sep +:+ key name +:+ String DQ (escape v +:+ String DQ "") +:+ rest)
    with ((sep +:+ key name +:+ String DQ "") +:+ (escape v +:+ String DQ rest))
    by (by rewrite !append_assoc, !append_cons, !append_assoc, !append_cons, !append_nil).
  rewrite expect_append. simpl. apply read_string_escape.
Qed.

Lemma status_of_status_text (st : Status) : status_of_text (status_text st) = Some st.
Proof. by destruct st. Qed.

Lemma JSON_parse_stringify (p : PendingPostData) : JSON_parse (JSON_stringify p) = Some p.
Proof.
  unfold JSON_parse, JSON_stringify.
  rewrite read_property_quote. cbn [mbind option_bind].
  rewrite read_property_quote. cbn [mbind option_bind].
  rewrite read_property_quote. cbn [mbind option_bind].
  rewrite read_property_quote. cbn [mbind option_bind].
  rewrite read_property_quote. cbn [mbind option_bind].
  rewrite status_of_status_text. cbn [mbind option_bind].
  by destruct p.
Qed.

Lemma JSON_stringify_truthy (p : PendingPostData) : truthy (JSON_stringify p) = true.
Proof. reflexivity. Qed.

(** ** Tasks and what they keep *)

Lemma bind_run {A B : Type} (m : Task A) (k : A -> Task B) (w : World) :
  (m ≫= k) w = k (m w).1 (m w).2.
Proof. unfold mbind, Task_bind. by destruct (m w). Qed.

Lemma ret_run {A : Type} (a : A) (w : World) : (mret a : Task A) w = (a, w).
Proof. reflexivity. Qed.

Section Keeps.

Context {B : Type} (obs : World -> B).

Lemma keeps_ret {A : Type} (a : A) : keeps obs (mret a : Task A).
Proof. by intros w. Qed.

Lemma keeps_bind {A C : Type} (m : Task A) (k : A -> Task C) :
  keeps obs m -> (forall a, keeps obs (k a)) -> keeps obs (m ≫= k).
Proof. intros Hm Hk w. by rewrite bind_run, Hk, Hm. Qed.

Lemma keeps_withRetry_from {A : Type} (fn : Task (Result A)) (config : RetryConfig)
    (remaining attempt : nat) (lastError : string) :
  keeps obs fn -> (forall d, keeps obs (sleep d)) ->
  keeps obs (withRetry_from fn config remaining attempt lastError).
Proof.
  intros Hfn Hsleep. revert attempt lastError.
  induction remaining as [|remaining IH]; intros attempt lastError; simpl.
  - apply keeps_ret.
  - apply keeps_bind; [done |]. intros [a | e]; [apply keeps_ret |].
    apply keeps_bind; [| intros _; apply IH].
    destruct (attempt <? maxAttempts config); [apply Hsleep | apply keeps_ret].
Qed.

Lemma keeps_withRetry {A : Type} (fn : Task (Result A)) (config : RetryConfig) :
  keeps obs fn -> (forall d, keeps obs (sleep d)) -> keeps obs (withRetry fn config).
Proof. apply keeps_withRetry_from. Qed.

End Keeps.

(** What the elementary tasks keep. *)

Lemma draw_keeps_store : keeps store draw. Proof. by intros w. Qed.
Lemma draw_keeps_written : keeps written draw. Proof. by intros w. Qed.
Lemma draw_keeps_published : keeps published draw. Proof. by intros w. Qed.
Lemma draw_keeps_tweeted : keeps tweeted draw. Proof. by intros w. Qed.
Lemma draw_keeps_notified : keeps notified draw. Proof. by intros w. Qed.
Lemma draw_keeps_fetches : keeps fetches draw. Proof. by intros w. Qed.

Lemma sleep_keeps_store d : keeps store (sleep d). Proof. by intros w. Qed.
Lemma sleep_keeps_written d : keeps written (sleep d). Proof. by intros w. Qed.
Lemma sleep_keeps_published d : keeps published (sleep d). Proof. by intros w. Qed.
Lemma sleep_keeps_tweeted d : keeps tweeted (sleep d). Proof. by intros w. Qed.
Lemma sleep_keeps_notified d : keeps notified (sleep d). Proof. by intros w. Qed.
Lemma sleep_keeps_fetches d : keeps fetches (sleep d). Proof. by intros w. Qed.

Lemma get_keeps {B : Type} (obs : World -> B) (key : string) : keeps obs (KV_get key).
Proof. by intros w. Qed.

Lemma Date_now_keeps {B : Type} (obs : World -> B) : keeps obs Date_now.
Proof. by intros w. Qed.

Lemma emit_keeps_store e : keeps store (emit e). Proof. by intros w. Qed.

Lemma emit_keeps_written e :
  (forall k v ttl, e <> EKvPut k v ttl) -> keeps written (emit e).
Proof. intros H w. unfold written. simpl. destruct e; naive_solver. Qed.

Lemma emit_keeps_published e :
  (forall i r, e <> EPostToX i r) -> keeps published (emit e).
Proof. intros H w. unfold published. simpl. destruct e; naive_solver. Qed.

Lemma emit_keeps_tweeted e :
  (forall t, e <> ETweet t) -> keeps tweeted (emit e).
Proof. intros H w. unfold tweeted. simpl. destruct e; naive_solver. Qed.

Lemma emit_keeps_notified e :
  (forall b c m, e <> ETelegram b c m) -> keeps notified (emit e).
Proof. intros H w. unfold notified. simpl. destruct e; naive_solver. Qed.

Lemma emit_keeps_fetches e :
  (forall url, e <> EFetch url) -> keeps fetches (emit e).
Proof. intros H w. unfold fetches. simpl. destruct e; naive_solver. Qed.

Lemma put_keeps_published k v ttl : keeps published (KV_put k v ttl).
Proof. by intros w. Qed.
Lemma put_keeps_tweeted k v ttl : keeps tweeted (KV_put k v ttl).
Proof. by intros w. Qed.
Lemma put_keeps_notified k v ttl : keeps notified (KV_put k v ttl).
Proof. by intros w. Qed.

Create HintDb frame.

#[local] Hint Resolve draw_keeps_store draw_keeps_written draw_keeps_published
  draw_keeps_tweeted draw_keeps_notified draw_keeps_fetches sleep_keeps_store
  sleep_keeps_written sleep_keeps_published sleep_keeps_tweeted
  sleep_keeps_notified sleep_keeps_fetches get_keeps
  Date_now_keeps emit_keeps_store put_keeps_published put_keeps_tweeted
  put_keeps_notified : frame.

#[local] Hint Extern 1 (keeps written (emit _)) =>
  apply emit_keeps_written; intros; discriminate : frame.
#[local] Hint Extern 1 (keeps published (emit _)) =>
  apply emit_keeps_published; intros; discriminate : frame.
#[local] Hint Extern 1 (keeps tweeted (emit _)) =>
  apply emit_keeps_tweeted; intros; discriminate : frame.
#[local] Hint Extern 1 (keeps notified (emit _)) =>
  apply emit_keeps_notified; intros; discriminate : frame.
#[local] Hint Extern 1 (keeps fetches (emit _)) =>
  apply emit_keeps_fetches; intros; discriminate : frame.

(** Splits a goal [keeps obs t] along the structure of the task [t]. *)
Ltac frame :=
  repeat first
    [ apply keeps_ret
    | apply keeps_bind; [| intros ?]
    | apply keeps_withRetry
    | apply keeps_withRetry_from
    | match goal with
      | |- keeps _ (match ?x with _ => _ end) => destruct x
      end
    | progress intros ];
  eauto with frame.

(** ** The helpers of the worker *)

Section WorkerFacts.

Variable P : Platform.
Variable net : Outside.

Lemma telegram_attempt_keeps_store m b c : keeps store (telegram_attempt net m b c).
Proof. unfold telegram_attempt. frame. Qed.
Lemma telegram_attempt_keeps_written m b c : keeps written (telegram_attempt net m b c).
Proof. unfold telegram_attempt. frame. Qed.
Lemma telegram_attempt_keeps_published m b c : keeps published (telegram_attempt net m b c).
Proof. unfold telegram_attempt. frame. Qed.
Lemma telegram_attempt_keeps_tweeted m b c : keeps tweeted (telegram_attempt net m b c).
Proof. unfold telegram_attempt. frame. Qed.

Hint Resolve telegram_attempt_keeps_store telegram_attempt_keeps_written
  telegram_attempt_keeps_published telegram_attempt_keeps_tweeted : frame.

Lemma send_keeps_store m b c : keeps store (sendTelegramMessage net m b c).
Proof. unfold sendTelegramMessage. frame. Qed.
Lemma send_keeps_written m b c : keeps written (sendTelegramMessage net m b c).
Proof. unfold sendTelegramMessage. frame. Qed.
Lemma send_keeps_published m b c : keeps published (sendTelegramMessage net m b c).
Proof. unfold sendTelegramMessage. frame. Qed.
Lemma send_keeps_tweeted m b c : keeps tweeted (sendTelegramMessage net m b c).
Proof. unfold sendTelegramMessage. frame. Qed.
Lemma send_keeps_fetches m b c : keeps fetches (sendTelegramMessage net m b c).
Proof. unfold sendTelegramMessage, telegram_attempt. frame. Qed.

(** A message is sent once or twice. *)
Lemma send_notifies m b c w :
  exists n, 1 <= n <= 2 /\
    notified (sendTelegramMessage net m b c w).2 = replicate n m ++ notified w.
Proof.
  unfold sendTelegramMessage, withRetry, telegram_attempt. simpl.
  rewrite !bind_run. simpl.
  destruct (telegram_api net (drawn w)) as [e | ok line body].
  - rewrite !bind_run. simpl.
    destruct (telegram_api net (S (drawn w))) as [e' | ok' line' body'];
      [| destruct (negb ok' || negb body')]; exists 2; (split; [lia | done]).
  - destruct (negb ok || negb body); simpl.
    + rewrite !bind_run. simpl.
      destruct (telegram_api net (S (drawn w))) as [e' | ok' line' body'];
        [| destruct (negb ok' || negb body')]; exists 2; (split; [lia | done]).
    + exists 1. split; [lia | done].
Qed.

Lemma send_notifies_elem m b c w : m ∈ notified (sendTelegramMessage net m b c w).2.
Proof.
  destruct (send_notifies m b c w) as (n & [Hn _] & ->).
  destruct n as [|n]; [lia |]. simpl. apply list_elem_of_here.
Qed.

Lemma fetch_attempt_keeps_store url : keeps store (fetch_attempt net url).
Proof. unfold fetch_attempt. frame. Qed.
Lemma fetch_attempt_keeps_written url : keeps written (fetch_attempt net url).
Proof. unfold fetch_attempt. frame. Qed.
Lemma fetch_attempt_keeps_published url : keeps published (fetch_attempt net url).
Proof. unfold fetch_attempt. frame. Qed.
Lemma fetch_attempt_keeps_tweeted url : keeps tweeted (fetch_attempt net url).
Proof. unfold fetch_attempt. frame. Qed.
Lemma fetch_attempt_keeps_notified url : keeps notified (fetch_attempt net url).
Proof. unfold fetch_attempt. frame. Qed.

Lemma getGeminiRecap_keeps_store d env : keeps store (getGeminiRecap net d env).
Proof. unfold getGeminiRecap, gemini_attempt. frame. Qed.
Lemma getGeminiRecap_keeps_written d env : keeps written (getGeminiRecap net d env).
Proof. unfold getGeminiRecap, gemini_attempt. frame. Qed.
Lemma getGeminiRecap_keeps_published d env : keeps published (getGeminiRecap net d env).
Proof. unfold getGeminiRecap, gemini_attempt. frame. Qed.
Lemma getGeminiRecap_keeps_tweeted d env : keeps tweeted (getGeminiRecap net d env).
Proof. unfold getGeminiRecap, gemini_attempt. frame. Qed.
Lemma getGeminiRecap_keeps_notified d env : keeps notified (getGeminiRecap net d env).
Proof. unfold getGeminiRecap, gemini_attempt. frame. Qed.

Lemma postToX_keeps_store i r env : keeps store (postToX net i r env).
Proof. unfold postToX, tweet_attempt. frame. Qed.
Lemma postToX_keeps_written i r env : keeps written (postToX net i r env).
Proof. unfold postToX, tweet_attempt. frame. Qed.
Lemma postToX_keeps_notified i r env : keeps notified (postToX net i r env).
Proof. unfold postToX, tweet_attempt. frame. Qed.

(** A call of [postToX] is one call of the publisher. *)
Lemma postToX_published i r env w :
  published (postToX net i r env w).2 = (i, r) :: published w.
Proof.
  unfold postToX. rewrite bind_run.
  assert (keeps published
            (draw ≫= fun _ =>
             withRetry (tweet_attempt net i (tweetText r)) RETRY_TWICE ≫= fun x =>
             mret (match x with
                   | Ok (TwitterResponse (Some id)) =>
                       if truthy id then mkResult true ""
                       else mkResult false "Unexpected Twitter API response"
                   | Ok (TwitterResponse None) =>
                       mkResult false "Unexpected Twitter API response"
                   | Ok (NotJson m) => mkResult false ("Failed to post to X/Twitter: " +:+ m)
                   | Throw m => mkResult false ("Failed to post to X/Twitter: " +:+ m)
                   end))) as H
    by (unfold tweet_attempt; frame).
  by rewrite H.
Qed.

End WorkerFacts.

(** ** The detection cycle *)

Section CycleFacts.

Variable P : Platform.
Variable net : Outside.

Lemma fetch_attempt_run url w :
  fetch_attempt net url w =
  (match changelog_site net (drawn w) with
   | NetworkError m => Throw m
   | Response ok statusLine body =>
       if negb ok then Throw ("Error fetching changelog: " +:+ statusLine) else Ok body
   end,
   mkWorld (CHANGELOG_KV w) (now w) (S (drawn w)) (EFetch url :: trace w)).
Proof. reflexivity. Qed.

Lemma fetch_attempt_fails url w :
  failed_answer (changelog_site net (drawn w)) = true ->
  exists message,
    fetch_attempt net url w =
    (Throw message, mkWorld (CHANGELOG_KV w) (now w) (S (drawn w)) (EFetch url :: trace w)).
Proof.
  intros H. rewrite fetch_attempt_run.
  destruct (changelog_site net (drawn w)) as [m | ok line body]; simpl in H.
  - by exists m.
  - rewrite H. by eexists.
Qed.

Lemma replicate_app_cons {A : Type} (n : nat) (x : A) (l : list A) :
  replicate n x ++ x :: l = x :: replicate n x ++ l.
Proof. induction n as [|n IH]; simpl; [done | by rewrite IH]. Qed.

(** When the site fails every attempt that is left, the loop of
    [withRetry] ends by throwing, after as many requests. *)
Lemma fetch_retry_fails url config remaining attempt e w :
  (forall i, i < remaining -> failed_answer (changelog_site net (drawn w + i)) = true) ->
  exists message w1,
    withRetry_from (fetch_attempt net url) config remaining attempt e w
      = (Throw message, w1) /\
    fetches w1 = replicate remaining url ++ fetches w.
Proof.
  revert attempt e w.
  induction remaining as [|remaining IH]; intros attempt e w H.
  - by exists e, w.
  - simpl. rewrite bind_run.
    destruct (fetch_attempt_fails url w) as [m E].
    { rewrite <- (Nat.add_0_r (drawn w)). apply H. lia. }
    rewrite E. simpl. rewrite bind_run.
    set (w' := ((if attempt <? maxAttempts config
                 then sleep (retry_delay config attempt) else mret ()) _).2).
    assert (drawn w' = S (drawn w) /\ fetches w' = url :: fetches w) as [Hd Hf]
      by (subst w'; by destruct (attempt <? maxAttempts config)).
    destruct (IH (S attempt) m w') as (message & w1 & -> & Hw1).
    { intros i Hi. rewrite Hd. replace (S (drawn w) + i) with (drawn w + S i) by lia.
      apply H. lia. }
    exists message, w1. split; [done |].
    by rewrite Hw1, Hf, replicate_app_cons.
Qed.

Lemma handleScheduled_failed env w message w1 :
  validateEnv P env = [] ->
  withRetry (fetch_attempt net (TARGET_CHANGELOG_URL env)) RETRY_CONFIG w
    = (Throw message, w1) ->
  handleScheduled P net env w =
  (CycleFailed message,
   (sendTelegramMessage net (MsgMonitorError message)
      (TELEGRAM_BOT_TOKEN env) (TELEGRAM_CHAT_ID env) w1).2).
Proof.
  intros Hvalid Hfetch. unfold handleScheduled. rewrite Hvalid.
  cbn [length Nat.ltb Nat.leb]. rewrite bind_run, Hfetch.
  cbn [fst snd]. by rewrite bind_run.
Qed.

Lemma handleScheduled_fetched env w pageContent :
  validateEnv P env = [] ->
  (withRetry (fetch_attempt net (TARGET_CHANGELOG_URL env)) RETRY_CONFIG w).1
    = Ok pageContent ->
  exists w1,
    store w1 = store w /\ written w1 = written w /\ notified w1 = notified w /\
    published w1 = published w /\
    handleScheduled P net env w =
    (let markdownContent := convertToMarkdown P pageContent in
     previousMarkdown ← KV_get currentKvKey;
     match previousMarkdown with
     | None => KV_put currentKvKey markdownContent None;; mret FirstVersionStored
     | Some previousMarkdown =>
         if String.eqb previousMarkdown markdownContent then mret SameContent
         else
           let diff := calculateDiff (diffLines P) previousMarkdown markdownContent in
           outcome ←
             (if String.eqb diff NO_DIFF then mret NoSubstantiveChange
              else
                recap ← getGeminiRecap net diff env;
                match recap with
                | Some recap =>
                    if truthy recap then
                      postId ← create_pending_post P net recap diff
                                 (TARGET_CHANGELOG_URL env) env;
                      mret (DiffProcessed diff (Some postId))
                    else mret (DiffProcessed diff None)
                | None => mret (DiffProcessed diff None)
                end);
           KV_put currentKvKey markdownContent None;;
           mret outcome
     end) w1.
Proof.
  intros Hvalid Hfetch.
  exists (withRetry (fetch_attempt net (TARGET_CHANGELOG_URL env)) RETRY_CONFIG w).2.
  repeat split.
  - apply keeps_withRetry; auto using fetch_attempt_keeps_store with frame.
  - apply keeps_withRetry; auto using fetch_attempt_keeps_written with frame.
  - apply keeps_withRetry; auto using fetch_attempt_keeps_notified with frame.
  - apply keeps_withRetry; auto using fetch_attempt_keeps_published with frame.
  - unfold handleScheduled. rewrite Hvalid.
    cbn [length Nat.ltb Nat.leb]. by rewrite bind_run, Hfetch.
Qed.


(** C9: when the changelog page cannot be fetched (the site fails the
    three attempts that [withRetry] makes), the cycle ends with an error
    that is reported on Telegram; it writes nothing to the store and
    creates no post: the store after the cycle is the store before it. *)
Theorem fetch_failure_aborts_cycle (env : Env) (w : World) :
  validateEnv P env = [] ->
  (forall i, i < maxAttempts RETRY_CONFIG ->
     failed_answer (changelog_site net (drawn w + i)) = true) ->
  let r := handleScheduled P net env w in
  exists message,
    r.1 = CycleFailed message /\
    detector_result r.1 = Error /\
    MsgMonitorError message ∈ notified r.2 /\
    fetches r.2 = replicate 3 (TARGET_CHANGELOG_URL env) ++ fetches w /\
    store r.2 = store w /\
    written r.2 = written w /\
    published r.2 = published w.
Proof.
  intros Hvalid Hfail r.
  destruct (fetch_retry_fails (TARGET_CHANGELOG_URL env) RETRY_CONFIG 3 1 "undefined" w Hfail)
    as (message & w1 & Hrun & Hfetches).
  assert (store w1 = store w /\ written w1 = written w /\ published w1 = published w)
    as (Hs & Hw & Hp).
  { change w1 with (Throw (A:=string) message, w1).2. rewrite <- Hrun.
    repeat split; apply keeps_withRetry_from;
      auto using fetch_attempt_keeps_store, fetch_attempt_keeps_written,
        fetch_attempt_keeps_published with frame. }
  exists message. subst r.
  rewrite (handleScheduled_failed env w message w1 Hvalid Hrun). cbn [fst snd].
  repeat split.
  - apply send_notifies_elem.
  - by rewrite send_keeps_fetches.
  - by rewrite send_keeps_store.
  - by rewrite send_keeps_written.
  - by rewrite send_keeps_published.
Qed.

(** C5: on the first observation of the source (no snapshot in the
    store), whatever the page fetched, the cycle stores its markdown as
    the snapshot and reports no change; it writes nothing else (no post),
    sends no message and does not call the publisher. *)
Theorem first_observation_bootstraps (env : Env) (w : World) (pageContent : string) :
  validateEnv P env = [] ->
  store w !! currentKvKey = None ->
  (withRetry (fetch_attempt net (TARGET_CHANGELOG_URL env)) RETRY_CONFIG w).1
    = Ok pageContent ->
  let r := handleScheduled P net env w in
  r.1 = FirstVersionStored /\
  detector_result r.1 = NoChange /\
  store r.2 = <[currentKvKey := mkEntry (convertToMarkdown P pageContent) None]> (store w) /\
  written r.2 = (currentKvKey, convertToMarkdown P pageContent, None) :: written w /\
  notified r.2 = notified w /\
  published r.2 = published w.
Proof.
  intros Hvalid Hnone Hfetch r.
  destruct (handleScheduled_fetched env w pageContent Hvalid Hfetch)
    as (w1 & Hs & Hw & Hn & Hp & Hrun).
  subst r. rewrite Hrun. cbv zeta. rewrite bind_run.
  assert ((KV_get currentKvKey w1).1 = None) as ->.
  { unfold KV_get. cbn [fst]. fold (store w1). by rewrite Hs, Hnone. }
  cbn [fst snd KV_get]. rewrite bind_run.
  rewrite <- Hs, <- Hw, <- Hn, <- Hp. done.
Qed.


End CycleFacts.

(** *** Runs of the detection cycle *)

(** A cycle on an empty store while the site cannot be reached. *)
Lemma fetch_failure_aborts_cycle_witness :
  let r := handleScheduled plain_platform site_down example_env empty_world in
  exists message,
    r.1 = CycleFailed message /\
    detector_result r.1 = Error /\
    MsgMonitorError message ∈ notified r.2 /\
    fetches r.2 = replicate 3 (TARGET_CHANGELOG_URL example_env) ++ fetches empty_world /\
    store r.2 = store empty_world /\
    written r.2 = written empty_world /\
    published r.2 = published empty_world.
Proof.
  apply (fetch_failure_aborts_cycle plain_platform site_down example_env empty_world).
  - reflexivity.
  - intros i _. reflexivity.
Defined.

(** A first cycle on an empty store. *)
Lemma first_observation_bootstraps_witness :
  let r := handleScheduled plain_platform (all_up "<h1>1.0</h1>" "recap")
             example_env empty_world in
  r.1 = FirstVersionStored /\
  detector_result r.1 = NoChange /\
  store r.2 = <[currentKvKey := mkEntry "<h1>1.0</h1>" None]> (store empty_world) /\
  written r.2 = (currentKvKey, "<h1>1.0</h1>", None) :: written empty_world /\
  notified r.2 = notified empty_world /\
  published r.2 = published empty_world.
Proof.
  apply (first_observation_bootstraps plain_platform (all_up "<h1>1.0</h1>" "recap")
           example_env empty_world "<h1>1.0</h1>"); reflexivity.
Defined.



(** ** The confirmation task *)

(** Runs the binds and returns at the head of a task. *)
Ltac run_task :=
  repeat (progress (rewrite ?bind_run, ?ret_run; cbn [fst snd])).

Section ConfirmFacts.

Variable net : Outside.

Hint Resolve send_keeps_store send_keeps_written send_keeps_published
  send_keeps_tweeted postToX_keeps_store postToX_keeps_written
  postToX_keeps_notified : frame.

Lemma stored_post_get (w : World) (postID : string) (p : PendingPostData) :
  stored_post w postID = Some p ->
  exists storedData,
    (KV_get (postKey postID) w).1 = Some storedData /\
    truthy storedData = true /\ JSON_parse storedData = Some p.
Proof.
  unfold stored_post. intros H.
  destruct (KV_get (postKey postID) w).1 as [s |]; [| done].
  exists s. by destruct (truthy s).
Qed.

(** Without a stored text the task tells the human and stops. *)
Lemma confirm_absent (postID : string) (env : Env) (w : World) :
  (KV_get (postKey postID) w).1 = None ->
  confirm net postID env w =
  (NotFound,
   (sendTelegramMessage net (MsgNotFound postID)
      (TELEGRAM_BOT_TOKEN env) (TELEGRAM_CHAT_ID env) w).2).
Proof.
  intros H. unfold confirm. rewrite bind_run, H.
  cbn [KV_get snd]. unfold confirm_check. by rewrite !bind_run.
Qed.

(** On a record that is not pending the task tells the human and stops. *)
Lemma confirm_decided (postID : string) (env : Env) (w : World) (p : PendingPostData) :
  stored_post w postID = Some p ->
  status p <> PENDING_CONFIRMATION ->
  let r := confirm net postID env w in
  r.1 = (if status p is POSTED_TO_X then AlreadyPublished else NotPending) /\
  store r.2 = store w /\ written r.2 = written w /\
  published r.2 = published w /\ tweeted r.2 = tweeted w.
Proof.
  intros Hp Hst r. destruct (stored_post_get w postID p Hp) as (s & Hget & Htr & Hparse).
  subst r. unfold confirm. rewrite bind_run, Hget.
  cbn [KV_get snd]. unfold confirm_check. rewrite Htr, Hparse. cbn [negb].
  destruct (status p); [done | |]; run_task;
    rewrite ?send_keeps_store, ?send_keeps_written, ?send_keeps_published,
      ?send_keeps_tweeted; done.
Qed.

(** On a pending record the task calls [postToX] and records the
    result. *)
Lemma confirm_pending (postID : string) (env : Env) (w : World) (p : PendingPostData) :
  stored_post w postID = Some p ->
  status p = PENDING_CONFIRMATION ->
  confirm net postID env w =
  confirm_record net postID env p (postToX net postID (recap p) env w).1
    (postToX net postID (recap p) env w).2.
Proof.
  intros Hp Hst. destruct (stored_post_get w postID p Hp) as (s & Hget & Htr & Hparse).
  unfold confirm. rewrite bind_run, Hget.
  cbn [KV_get snd]. unfold confirm_check. rewrite Htr, Hparse, Hst. cbn [negb].
  by rewrite !bind_run.
Qed.

(** What [confirm_record] returns and leaves. *)
Lemma confirm_record_run (postID : string) (env : Env) (p : PendingPostData)
    (result : PostResult) (w : World) :
  let r := confirm_record net postID env p result w in
  let st := if success result then POSTED_TO_X else FAILED_TO_POST in
  r.1 = (if success result then Published
         else PublishFailed (if truthy (error result) then error result
                             else "No specific error was provided.")) /\
  store r.2 = <[postKey postID := mkEntry (JSON_stringify (with_status p st)) None]> (store w) /\
  written r.2 = (postKey postID, JSON_stringify (with_status p st), None) :: written w /\
  published r.2 = published w /\ tweeted r.2 = tweeted w.
Proof.
  unfold confirm_record.
  destruct (success result); cbv zeta; run_task;
    rewrite ?send_keeps_store, ?send_keeps_written, ?send_keeps_published,
      ?send_keeps_tweeted; done.
Qed.

(** A record written without a time to live is read back at any time. *)
Lemma stored_post_insert (w : World) (postID : string) (p : PendingPostData) :
  store w !! postKey postID = Some (mkEntry (JSON_stringify p) None) ->
  stored_post w postID = Some p.
Proof.
  unfold stored_post, KV_get, store. cbn [fst]. intros ->.
  cbn [expired kv_expiration kv_value]. by rewrite JSON_stringify_truthy, JSON_parse_stringify.
Qed.


(** C6: for an identifier under which the store holds nothing, or an
    entry that has expired, the confirmation task ends in [NotFound] (it
    does not throw), tells the human, does not call the publisher and
    writes nothing to the store. *)
Theorem confirm_unknown_or_expired (postID : string) (env : Env) (w : World) :
  (store w !! postKey postID = None \/
   exists e, store w !! postKey postID = Some e /\ expired (now w) e = true) ->
  let r := confirm net postID env w in
  r.1 = NotFound /\
  MsgNotFound postID ∈ notified r.2 /\
  store r.2 = store w /\
  written r.2 = written w /\
  published r.2 = published w /\
  tweeted r.2 = tweeted w.
Proof.
  intros Habsent r.
  assert ((KV_get (postKey postID) w).1 = None) as Hget.
  { unfold KV_get. cbn [fst]. fold (store w).
    destruct Habsent as [-> | (e & -> & ->)]; done. }
  subst r. rewrite (confirm_absent postID env w Hget). cbn [fst snd].
  repeat split.
  - apply send_notifies_elem.
  - apply send_keeps_store.
  - apply send_keeps_written.
  - apply send_keeps_published.
  - apply send_keeps_tweeted.
Qed.

(** The first call on a pending post: the publisher is called once and
    the post is stored with its new status. *)
Lemma confirm_pending_effect (postID : string) (env : Env) (w : World)
    (p : PendingPostData) :
  stored_post w postID = Some p ->
  status p = PENDING_CONFIRMATION ->
  let first := confirm net postID env w in
  exists st,
    ((st = POSTED_TO_X /\ first.1 = Published) \/
     (st = FAILED_TO_POST /\ exists reason, first.1 = PublishFailed reason)) /\
    stored_post first.2 postID = Some (with_status p st) /\
    published first.2 = (postID, recap p) :: published w.
Proof.
  intros Hp Hst first.
  pose proof (confirm_pending postID env w p Hp Hst) as Hfirst.
  set (posted := postToX net postID (recap p) env w) in Hfirst.
  destruct (confirm_record_run postID env p posted.1 posted.2)
    as (Hout & Hstore & _ & Hpub & _).
  fold first in Hfirst. rewrite <- Hfirst in Hout, Hstore, Hpub.
  exists (if success posted.1 then POSTED_TO_X else FAILED_TO_POST).
  split; [| split].
  - destruct (success posted.1); [left | right]; eauto.
  - apply stored_post_insert. rewrite Hstore. apply lookup_insert_eq.
  - rewrite Hpub. apply postToX_published.
Qed.

(** C3: two calls in a row on a pending post. The first one calls the
    publisher and writes [POSTED_TO_X] or [FAILED_TO_POST]; the second one
    ends in [AlreadyPublished] after a success and in [NotPending] after
    a failure, and leaves the store as it is; the publisher is called
    once in all. A post that is [POSTED_TO_X] stays so at every call. *)
Theorem confirm_twice_publishes_once (postID : string) (env : Env) (w : World)
    (p : PendingPostData) :
  stored_post w postID = Some p ->
  status p = PENDING_CONFIRMATION ->
  let first := confirm net postID env w in
  let second := confirm net postID env first.2 in
  ((first.1 = Published /\
    stored_post first.2 postID = Some (with_status p POSTED_TO_X) /\
    second.1 = AlreadyPublished) \/
   ((exists reason, first.1 = PublishFailed reason) /\
    stored_post first.2 postID = Some (with_status p FAILED_TO_POST) /\
    second.1 = NotPending)) /\
  store second.2 = store first.2 /\
  published second.2 = (postID, recap p) :: published w /\
  (forall (w' : World) (q : PendingPostData),
     stored_post w' postID = Some q -> status q = POSTED_TO_X ->
     (confirm net postID env w').1 = AlreadyPublished /\
     store (confirm net postID env w').2 = store w' /\
     published (confirm net postID env w').2 = published w').
Proof.
  intros Hp Hst first second.
  destruct (confirm_pending_effect postID env w p Hp Hst) as (st & Hcases & Hp' & Hpub).
  fold first in Hcases, Hp', Hpub.
  assert (status (with_status p st) <> PENDING_CONFIRMATION) as Hst'
    by (destruct Hcases as [[-> _] | [-> _]]; done).
  destruct (confirm_decided postID env first.2 _ Hp' Hst')
    as (Hout2 & Hstore2 & _ & Hpub2 & _).
  fold second in Hout2, Hstore2, Hpub2.
  split; [| split; [done | split]].
  - destruct Hcases as [[-> Hout] | [-> Hout]]; [left | right]; by rewrite Hout2.
  - by rewrite Hpub2, Hpub.
  - intros w' q Hq Hposted.
    destruct (confirm_decided postID env w' q Hq) as (H1 & H2 & _ & H3 & _).
    { by rewrite Hposted. }
    by rewrite Hposted in H1.
Qed.

(** The writes of a confirmation task that finds a pending post. *)
Lemma confirm_writes (postID : string) (env : Env) (w : World) (p : PendingPostData) :
  stored_post w postID = Some p ->
  status p = PENDING_CONFIRMATION ->
  exists st,
    (st = POSTED_TO_X \/ st = FAILED_TO_POST) /\
    written (confirm net postID env w).2 =
      (postKey postID, JSON_stringify (with_status p st), None) :: written w /\
    store (confirm net postID env w).2 !! postKey postID =
      Some (mkEntry (JSON_stringify (with_status p st)) None).
Proof.
  intros Hp Hst. rewrite (confirm_pending postID env w p Hp Hst).
  set (posted := postToX net postID (recap p) env w).
  destruct (confirm_record_run postID env p posted.1 posted.2)
    as (_ & Hstore & Hw & _).
  exists (if success posted.1 then POSTED_TO_X else FAILED_TO_POST).
  split; [destruct (success posted.1); auto |].
  rewrite Hw, Hstore. split.
  - subst posted. by rewrite postToX_keeps_written.
  - apply lookup_insert_eq.
Qed.

End ConfirmFacts.

(** ** Which writes carry a time to live *)

Lemma writes_ret {A : Type} ok (a : A) : writes ok (mret a : Task A).
Proof. intros w. by exists []. Qed.

Lemma writes_keeps {A : Type} ok (t : Task A) : keeps written t -> writes ok t.
Proof. intros H w. exists []. by rewrite H. Qed.

Lemma writes_bind {A C : Type} ok (m : Task A) (k : A -> Task C) :
  writes ok m -> (forall a, writes ok (k a)) -> writes ok (m ≫= k).
Proof.
  intros Hm Hk w. rewrite bind_run.
  destruct (Hm w) as (new1 & E1 & F1).
  destruct (Hk (m w).1 (m w).2) as (new2 & E2 & F2).
  exists (new2 ++ new1). split.
  - by rewrite E2, E1, (assoc_L (++)).
  - by apply Forall_app.
Qed.

Lemma writes_put (ok : string * string * option N -> Prop) key value ttl :
  ok (key, value, ttl) -> writes ok (KV_put key value ttl).
Proof. intros H w. exists [(key, value, ttl)]. split; [done | by constructor]. Qed.

#[local] Hint Resolve send_keeps_written getGeminiRecap_keeps_written
  fetch_attempt_keeps_written postToX_keeps_written : frame.

(** Splits a goal [writes ok t] along the structure of the task [t]. *)
Ltac writes_split :=
  repeat first
    [ apply writes_ret
    | apply writes_keeps; solve [frame]
    | apply writes_bind; [| intros ?]
    | match goal with
      | |- writes _ (match ?x with _ => _ end) => destruct x
      | |- writes _ (let _ := _ in _) => cbv zeta
      end ].

Lemma create_pending_post_writes P net recap diff url env :
  writes cycle_write (create_pending_post P net recap diff url env).
Proof.
  unfold create_pending_post. writes_split.
  apply writes_put. right. by eexists _, _.
Qed.

Lemma handleScheduled_writes P net env : writes cycle_write (handleScheduled P net env).
Proof.
  unfold handleScheduled. writes_split;
    apply writes_put; first [by left | right; by eexists _, _].
Qed.

Lemma confirm_writes_only net postID env : writes (confirm_write postID) (confirm net postID env).
Proof.
  unfold confirm, confirm_check, confirm_record. writes_split;
    apply writes_put; (split; [done | split; [done |]]); eexists; split; eauto.
Qed.

Lemma get_after_put_with_ttl key value ttl w t :
  (now w + 1000 * ttl <= t)%N ->
  (KV_get key (mkWorld (store (KV_put key value (Some ttl) w).2) t (drawn w) (trace w))).1
    = None.
Proof.
  intros Ht. unfold KV_get, KV_put, store. cbn [fst snd CHANGELOG_KV now].
  rewrite lookup_insert_eq. cbn [fmap option_fmap option_map expired kv_expiration].
  by rewrite (proj2 (N.leb_le _ _) Ht).
Qed.

Lemma get_after_put_without_ttl key value w t :
  (KV_get key (mkWorld (store (KV_put key value None w).2) t (drawn w) (trace w))).1
    = Some value.
Proof.
  unfold KV_get, KV_put, store. cbn [fst snd CHANGELOG_KV now].
  by rewrite lookup_insert_eq.
Qed.

(** C4, as the worker has it: the detection cycle writes a post only as
    a pending one, with a time to live of 86400 seconds, after which the
    store no longer returns it; the confirmation task writes the post
    with its new status ([POSTED_TO_X] or [FAILED_TO_POST]) without a
    time to live, and the store returns such an entry at any later
    time. *)
Theorem draft_lifetime_by_writer :
  (forall P net env, writes cycle_write (handleScheduled P net env)) /\
  (forall net postID env, writes (confirm_write postID) (confirm net postID env)) /\
  (forall key value ttl w t,
     (now w + 1000 * ttl <= t)%N ->
     (KV_get key (mkWorld (store (KV_put key value (Some ttl) w).2) t (drawn w) (trace w))).1
       = None) /\
  (forall key value w t,
     (KV_get key (mkWorld (store (KV_put key value None w).2) t (drawn w) (trace w))).1
       = Some value).
Proof.
  split; [| split; [| split]].
  - apply handleScheduled_writes.
  - apply confirm_writes_only.
  - apply get_after_put_with_ttl.
  - apply get_after_put_without_ttl.
Qed.

(** C4 fails on the worker: the write by which a confirmation records
    [POSTED_TO_X] has no time to live; the entry replaces the one that
    expired after a day and is still read long after. *)
Lemma confirm_outcome_write_never_expires :
  let r := confirm (all_up "" "") "3f2a" example_env world_with_post in
  stored_post world_with_post "3f2a" = Some example_post /\
  r.1 = Published /\
  written r.2 =
    [(postKey "3f2a", JSON_stringify (with_status example_post POSTED_TO_X), None)] /\
  kv_expiration <$> store r.2 !! postKey "3f2a" = Some None /\
  stored_post (mkWorld (store r.2) 1000000000000 0 []) "3f2a"
    = Some (with_status example_post POSTED_TO_X).
Proof. repeat split; reflexivity. Qed.

(** ** The text sent to X *)

Lemma length_append (s t : string) :
  String.length (s +:+ t) = String.length s + String.length t.
Proof. induction s as [|c s IH]; [done |]. rewrite append_cons. simpl. by rewrite IH. Qed.

Lemma length_substring_to (n : nat) (s : string) :
  n <= String.length s -> String.length (substring_to n s) = n.
Proof.
  unfold substring_to. revert s.
  induction n as [|n IH]; intros s Hn.
  - by destruct s.
  - destruct s as [|c s]; simpl in *; [lia |]. rewrite IH; [done | lia].
Qed.

Lemma tweetText_length (recap : string) : String.length (tweetText recap) <= MAX_TWEET_LENGTH.
Proof.
  unfold tweetText. destruct (Nat.ltb_spec MAX_TWEET_LENGTH (String.length recap)) as [H | H].
  - rewrite length_append, length_substring_to; unfold MAX_TWEET_LENGTH in *; simpl; lia.
  - done.
Qed.

(** The requests of [postToX] to the X API all carry the same text. *)
Lemma postToX_tweets net postID recap env w :
  exists n, 1 <= n <= 2 /\
    tweeted (postToX net postID recap env w).2 = replicate n (tweetText recap) ++ tweeted w.
Proof.
  unfold postToX, withRetry, tweet_attempt. simpl.
  rewrite !bind_run. simpl.
  destruct (x_api net (S (drawn w))) as [e | ok line body].
  - rewrite !bind_run. simpl.
    destruct (x_api net (S (S (drawn w)))) as [e' | ok' line' body'];
      [| destruct ok']; exists 2; (split; [lia | done]).
  - destruct ok; simpl.
    + exists 1. split; [lia | done].
    + rewrite !bind_run. simpl.
      destruct (x_api net (S (S (drawn w)))) as [e' | ok' line' body'];
        [| destruct ok']; exists 2; (split; [lia | done]).
Qed.

(** C10: the text that [postToX] sends to X has at most 280 characters:
    the recap itself when it has at most 280, and else its first 277
    followed by three dots; every request of a call carries that text. *)
Theorem tweet_within_limit (recap : string) :
  String.length (tweetText recap) <= 280 /\
  (String.length recap <= 280 -> tweetText recap = recap) /\
  (280 < String.length recap ->
   tweetText recap = substring_to 277 recap +:+ "..." /\
   String.length (substring_to 277 recap) = 277) /\
  (forall net postID env w,
     exists n, 1 <= n <= 2 /\
       tweeted (postToX net postID recap env w).2
         = replicate n (tweetText recap) ++ tweeted w).
Proof.
  split; [apply tweetText_length | split; [| split]].
  - intros H. unfold tweetText.
    destruct (Nat.ltb_spec MAX_TWEET_LENGTH (String.length recap)) as [H' | _]; [| done].
    unfold MAX_TWEET_LENGTH in H'. lia.
  - intros H. unfold tweetText.
    destruct (Nat.ltb_spec MAX_TWEET_LENGTH (String.length recap)) as [_ | H'].
    + split; [done |]. apply length_substring_to. lia.
    + unfold MAX_TWEET_LENGTH in H'. lia.
  - intros. apply postToX_tweets.
Qed.

(** ** Two confirmation tasks at once *)

Section RaceFacts.

Variable net : Outside.

Lemma confirm_step_start postID env w :
  confirm_step net postID env AtStart w = (Loaded (KV_get (postKey postID) w).1, w).
Proof. reflexivity. Qed.

(** Three steps are the whole task. *)
Lemma confirm_steps postID env w :
  let s1 := confirm_step net postID env AtStart w in
  let s2 := confirm_step net postID env s1.1 s1.2 in
  let s3 := confirm_step net postID env s2.1 s2.2 in
  s3 = (Finished (confirm net postID env w).1, (confirm net postID env w).2).
Proof.
  cbv zeta. rewrite confirm_step_start. cbn [fst snd].
  unfold confirm. rewrite bind_run. cbn [KV_get fst snd].
  set (get := match CHANGELOG_KV w !! postKey postID with
              | Some e => if expired (now w) e then None else Some (kv_value e)
              | None => None
              end).
  cbn [confirm_step]. rewrite !bind_run.
  destruct (confirm_check net postID env get w) as [[o | [p result]] w1]; cbn [fst snd].
  - by rewrite !ret_run.
  - rewrite !ret_run. cbn [fst snd confirm_step]. rewrite bind_run.
    by destruct (confirm_record net postID env p result w1).
Qed.

(** A task that has read the store calls the publisher exactly when it
    has read a pending post and not called yet. *)
Lemma confirm_step_started postID env pc w :
  started pc = true ->
  let r := confirm_step net postID env pc w in
  started r.1 = true /\
  length (published r.2) + will_post r.1 = length (published w) + will_post pc.
Proof.
  intros Hpc. destruct pc as [| [s |] | p result | o]; [done | | | |]; cbv zeta.
  - cbn [confirm_step will_post]. unfold confirm_check.
    destruct (truthy s); cbn [negb].
    + destruct (JSON_parse s) as [p |]; [| by run_task].
      destruct (status p); run_task;
        rewrite ?send_keeps_published, ?postToX_published; simpl; split; (done || lia).
    + run_task. by rewrite send_keeps_published.
  - cbn [confirm_step will_post]. unfold confirm_check. run_task.
    by rewrite send_keeps_published.
  - cbn [confirm_step will_post]. run_task.
    destruct (confirm_record_run net postID env p result w) as (_ & _ & _ & -> & _).
    done.
  - done.
Qed.

Lemma confirm_step_may_post postID env pc w :
  let r := confirm_step net postID env pc w in
  length (published r.2) + may_post r.1 <= length (published w) + may_post pc /\
  length (published w) + will_post pc <= length (published r.2) + will_post r.1.
Proof.
  destruct pc as [| x | p result | o].
  - rewrite confirm_step_start. cbn [fst snd may_post].
    assert (will_post (Loaded (KV_get (postKey postID) w).1) <= 1).
    { unfold will_post. destruct (KV_get (postKey postID) w).1 as [s |]; [| lia].
      destruct (truthy s); [| lia]. destruct (JSON_parse s) as [p |]; [| lia].
      destruct (status p); lia. }
    simpl will_post at 2. lia.
  - destruct (confirm_step_started postID env (Loaded x) w eq_refl) as [Hs H].
    cbv zeta. destruct (confirm_step net postID env (Loaded x) w).1; [done | | |];
      cbn [may_post] in *; lia.
  - destruct (confirm_step_started postID env (Posted p result) w eq_refl) as [Hs H].
    cbv zeta. destruct (confirm_step net postID env (Posted p result) w).1; [done | | |];
      cbn [may_post] in *; lia.
  - cbv zeta. cbn [confirm_step]. rewrite ret_run. cbn [fst snd]. lia.
Qed.

Lemma race_cons postID env turn schedule pcs w :
  race net postID env (turn :: schedule) pcs w =
  match turn with
  | First =>
      race net postID env schedule
        ((confirm_step net postID env pcs.1 w).1, pcs.2)
        (confirm_step net postID env pcs.1 w).2
  | Second =>
      race net postID env schedule
        (pcs.1, (confirm_step net postID env pcs.2 w).1)
        (confirm_step net postID env pcs.2 w).2
  end.
Proof. destruct turn; simpl; by rewrite bind_run. Qed.

(** Along any schedule, no task calls the publisher more than once, and
    a call that is due is made or still due. *)
Lemma race_bounds postID env schedule pcs w :
  let r := race net postID env schedule pcs w in
  length (published r.2) + may_post r.1.1 + may_post r.1.2
    <= length (published w) + may_post pcs.1 + may_post pcs.2 /\
  length (published w) + will_post pcs.1 + will_post pcs.2
    <= length (published r.2) + will_post r.1.1 + will_post r.1.2.
Proof.
  revert pcs w. induction schedule as [|turn schedule IH]; intros [pc1 pc2] w.
  - simpl. lia.
  - cbv zeta. rewrite race_cons. cbn [fst snd]. destruct turn.
    + destruct (confirm_step_may_post postID env pc1 w) as [H1 H2].
      destruct (IH ((confirm_step net postID env pc1 w).1, pc2)
                   (confirm_step net postID env pc1 w).2) as [H3 H4].
      cbn [fst snd] in *. lia.
    + destruct (confirm_step_may_post postID env pc2 w) as [H1 H2].
      destruct (IH (pc1, (confirm_step net postID env pc2 w).1)
                   (confirm_step net postID env pc2 w).2) as [H3 H4].
      cbn [fst snd] in *. lia.
Qed.

(** Once both tasks have read the store, the number of calls is settled. *)
Lemma race_started postID env schedule pcs w :
  started pcs.1 = true -> started pcs.2 = true ->
  let r := race net postID env schedule pcs w in
  length (published r.2) + will_post r.1.1 + will_post r.1.2
    = length (published w) + will_post pcs.1 + will_post pcs.2.
Proof.
  revert pcs w. induction schedule as [|turn schedule IH]; intros [pc1 pc2] w H1 H2.
  - done.
  - cbv zeta. rewrite race_cons. cbn [fst snd] in *. destruct turn.
    + destruct (confirm_step_started postID env pc1 w H1) as [Hs Hn].
      rewrite (IH ((confirm_step net postID env pc1 w).1, pc2)
                  (confirm_step net postID env pc1 w).2 Hs H2).
      cbn [fst snd]. lia.
    + destruct (confirm_step_started postID env pc2 w H2) as [Hs Hn].
      rewrite (IH (pc1, (confirm_step net postID env pc2 w).1)
                  (confirm_step net postID env pc2 w).2 H1 Hs).
      cbn [fst snd]. lia.
Qed.

Lemma finished_will_post pc : finished pc = true -> will_post pc = 0 /\ may_post pc = 0.
Proof. by destruct pc. Qed.

Lemma will_post_pending postID w p :
  stored_post w postID = Some p -> status p = PENDING_CONFIRMATION ->
  will_post (Loaded (KV_get (postKey postID) w).1) = 1.
Proof.
  intros Hp Hst. destruct (stored_post_get w postID p Hp) as (s & -> & Htr & Hparse).
  unfold will_post. by rewrite Htr, Hparse, Hst.
Qed.


(** C2, as the worker has it: the task reads the post, calls the
    publisher and then writes, with nothing that makes the three one
    step. Of two tasks for the same pending post, each calls the
    publisher at most once, and once both have finished there has been
    one call at least and two at most; there are two when both tasks
    read the store before either goes on; there is one when the tasks run
    one after the other, and the second task then ends in
    [AlreadyPublished] or [NotPending]. *)
Theorem concurrent_confirm_publishes_once_or_twice (postID : string) (env : Env)
    (w : World) (p : PendingPostData) :
  stored_post w postID = Some p ->
  status p = PENDING_CONFIRMATION ->
  (forall schedule,
     let r := race net postID env schedule (AtStart, AtStart) w in
     finished r.1.1 = true -> finished r.1.2 = true ->
     length (published w) + 1 <= length (published r.2) <= length (published w) + 2) /\
  (forall turn turn' rest,
     turn <> turn' ->
     let r := race net postID env (turn :: turn' :: rest) (AtStart, AtStart) w in
     finished r.1.1 = true -> finished r.1.2 = true ->
     length (published r.2) = length (published w) + 2) /\
  (let r := race net postID env [First; First; First; Second; Second; Second]
              (AtStart, AtStart) w in
   length (published r.2) = length (published w) + 1 /\
   finished r.1.1 = true /\
   (r.1.2 = Finished AlreadyPublished \/ r.1.2 = Finished NotPending)).
Proof.
  intros Hp Hst. split; [| split].
  - intros schedule r F1 F2.
    destruct (finished_will_post _ F1) as [W1 M1].
    destruct (finished_will_post _ F2) as [W2 M2].
    split.
    + destruct schedule as [|turn schedule]; [done |].
      subst r. rewrite race_cons in *.
      pose proof (will_post_pending postID w p Hp Hst) as Hread.
      destruct turn; rewrite confirm_step_start in *; cbn [fst snd] in *.
      * destruct (race_bounds postID env schedule
                    (Loaded (KV_get (postKey postID) w).1, AtStart) w) as [_ H].
        cbn [fst snd] in H. rewrite W1, W2, Hread in H. cbn [will_post] in H. lia.
      * destruct (race_bounds postID env schedule
                    (AtStart, Loaded (KV_get (postKey postID) w).1) w) as [_ H].
        cbn [fst snd] in H. rewrite W1, W2, Hread in H. cbn [will_post] in H. lia.
    + destruct (race_bounds postID env schedule (AtStart, AtStart) w) as [H _].
      fold r in H. rewrite M1, M2 in H. cbn [fst snd may_post] in H. lia.
  - intros turn turn' rest Hturn r F1 F2.
    destruct (finished_will_post _ F1) as [W1 _].
    destruct (finished_will_post _ F2) as [W2 _].
    subst r. rewrite !race_cons in *.
    destruct turn, turn'; try done;
      rewrite !confirm_step_start in *; cbn [fst snd] in *.
    all: pose proof (race_started postID env rest
                  (Loaded (KV_get (postKey postID) w).1,
                   Loaded (KV_get (postKey postID) w).1) w eq_refl eq_refl) as H.
    all: cbn [fst snd] in H.
    all: rewrite W1, W2, (will_post_pending postID w p Hp Hst) in H; lia.
  - cbv zeta. rewrite !race_cons. cbn [fst snd].
    pose proof (confirm_steps postID env w) as E1. cbv zeta in E1. rewrite E1.
    cbn [fst snd].
    pose proof (confirm_steps postID env (confirm net postID env w).2) as E2.
    cbv zeta in E2. rewrite E2. cbn [race]. rewrite ret_run. cbn [fst snd].
    destruct (confirm_pending_effect net postID env w p Hp Hst)
      as (st & Hcases & Hp' & Hpub).
    assert (status (with_status p st) <> PENDING_CONFIRMATION) as Hst'
      by (destruct Hcases as [[-> _] | [-> _]]; done).
    destruct (confirm_decided net postID env _ _ Hp' Hst') as (Hout2 & _ & _ & Hpub2 & _).
    rewrite Hpub2, Hpub, Hout2. split; [cbn [length]; lia | split; [done |]].
    destruct Hcases as [[-> _] | [-> _]]; auto.
Qed.

End RaceFacts.

(** ** Examples of the properties of the confirmation task *)

(** A confirmation a day after the post was stored. *)
Lemma confirm_unknown_or_expired_witness :
  let r := confirm (all_up "" "") "3f2a" example_env world_after_expiry in
  r.1 = NotFound /\
  MsgNotFound "3f2a" ∈ notified r.2 /\
  store r.2 = store world_after_expiry /\
  written r.2 = written world_after_expiry /\
  published r.2 = published world_after_expiry /\
  tweeted r.2 = tweeted world_after_expiry.
Proof.
  apply (confirm_unknown_or_expired (all_up "" "") "3f2a" example_env world_after_expiry).
  right. exists (mkEntry (JSON_stringify example_post) (Some 86400000%N)).
  split; reflexivity.
Defined.

Example confirm_never_created :
  (confirm (all_up "" "") "0000" example_env world_with_post).1 = NotFound.
Proof. reflexivity. Qed.

(** Two confirmations in a row of a stored pending post. *)
Lemma confirm_twice_publishes_once_witness :
  let first := confirm (all_up "" "") "3f2a" example_env world_with_post in
  let second := confirm (all_up "" "") "3f2a" example_env first.2 in
  ((first.1 = Published /\
    stored_post first.2 "3f2a" = Some (with_status example_post POSTED_TO_X) /\
    second.1 = AlreadyPublished) \/
   ((exists reason, first.1 = PublishFailed reason) /\
    stored_post first.2 "3f2a" = Some (with_status example_post FAILED_TO_POST) /\
    second.1 = NotPending)) /\
  store second.2 = store first.2 /\
  published second.2 = ("3f2a", recap example_post) :: published world_with_post /\
  (forall (w' : World) (q : PendingPostData),
     stored_post w' "3f2a" = Some q -> status q = POSTED_TO_X ->
     (confirm (all_up "" "") "3f2a" example_env w').1 = AlreadyPublished /\
     store (confirm (all_up "" "") "3f2a" example_env w').2 = store w' /\
     published (confirm (all_up "" "") "3f2a" example_env w').2 = published w').
Proof.
  apply (confirm_twice_publishes_once (all_up "" "") "3f2a" example_env world_with_post
           example_post); reflexivity.
Defined.

(** Two confirmations at once of a stored pending post. *)
Lemma concurrent_confirm_witness :
  let net := all_up "" "" in
  let w := world_with_post in
  (forall schedule,
     let r := race net "3f2a" example_env schedule (AtStart, AtStart) w in
     finished r.1.1 = true -> finished r.1.2 = true ->
     length (published w) + 1 <= length (published r.2) <= length (published w) + 2) /\
  (forall turn turn' rest,
     turn <> turn' ->
     let r := race net "3f2a" example_env (turn :: turn' :: rest) (AtStart, AtStart) w in
     finished r.1.1 = true -> finished r.1.2 = true ->
     length (published r.2) = length (published w) + 2) /\
  (let r := race net "3f2a" example_env [First; First; First; Second; Second; Second]
              (AtStart, AtStart) w in
   length (published r.2) = length (published w) + 1 /\
   finished r.1.1 = true /\
   (r.1.2 = Finished AlreadyPublished \/ r.1.2 = Finished NotPending)).
Proof.
  apply (concurrent_confirm_publishes_once_or_twice (all_up "" "") "3f2a" example_env
           world_with_post example_post); reflexivity.
Defined.

(** C2 fails on the worker: two tasks for the same pending post that
    take turns both read the post as pending, both call the publisher
    and both end in [Published]. *)
Lemma concurrent_confirm_publishes_twice :
  let r := race (all_up "" "") "3f2a" example_env
             [First; Second; First; Second; First; Second] (AtStart, AtStart)
             world_with_post in
  stored_post world_with_post "3f2a" = Some example_post /\
  status example_post = PENDING_CONFIRMATION /\
  r.1 = (Finished Published, Finished Published) /\
  published r.2 = [("3f2a", recap example_post); ("3f2a", recap example_post)] /\
  tweeted r.2 = [recap example_post; recap example_post].
Proof. repeat split; reflexivity. Qed.

(** ** The diff engine on all texts *)

(** C7: for two texts that differ (texts that differ, differ in a line,
    a line being taken with its line feed), [calculateDiff] with the line
    differ of the package returns a rendered diff: not the text for no
    difference, not empty, and with a line that is marked as an addition
    or as a removal. *)
Theorem compare_changed_marks_a_line (A B : string) :
  A <> B ->
  let d := calculateDiff JsDiff.diffLines A B in
  d <> NO_DIFF /\ d <> "" /\
  exists line, line ∈ split_nl d /\ marked line = true.
Proof.
  intros Hne d.
  assert (marked d = true) as Hd.
  { apply calculateDiff_marked, exact_differ_changed; [apply diffLines_exact | done]. }
  split; [| split].
  - intros E. by rewrite E in Hd.
  - intros E. by rewrite E in Hd.
  - by apply marked_first_line.
Qed.

(** The two texts of the scenario of the design: a third line is added. *)
Lemma compare_changed_marks_a_line_witness :
  let d := calculateDiff JsDiff.diffLines
             ("Line1" +:+ nl +:+ "Line2")
             ("Line1" +:+ nl +:+ "Line2" +:+ nl +:+ "Line3") in
  d <> NO_DIFF /\ d <> "" /\
  exists line, line ∈ split_nl d /\ marked line = true.
Proof.
  apply (compare_changed_marks_a_line
           ("Line1" +:+ nl +:+ "Line2")
           ("Line1" +:+ nl +:+ "Line2" +:+ nl +:+ "Line3")).
  discriminate.
Defined.

(** C8: for every text, the empty one too, [calculateDiff] of the text
    and itself is the text for no difference; and [calculateDiff] is a
    function of its two texts alone. *)
Theorem compare_same_text_unchanged (A : string) :
  calculateDiff JsDiff.diffLines A A = NO_DIFF /\
  calculateDiff JsDiff.diffLines "" "" = NO_DIFF /\
  (forall A' B B' : string,
     A = A' -> B = B' ->
     calculateDiff JsDiff.diffLines A B = calculateDiff JsDiff.diffLines A' B').
Proof.
  split; [| split].
  - apply calculateDiff_quiet, diffLines_quiet.
  - reflexivity.
  - by intros A' B B' -> ->.
Qed.

(** With the differ of the package, the branch of [handleScheduled] for
    a diff without change is not taken: the texts it compares differ. *)
Lemma exact_differ_never_quiet (differ : string -> string -> list Change) (a b : string) :
  exact_differ differ -> a <> b -> calculateDiff differ a b <> NO_DIFF.
Proof.
  intros Hexact Hab E.
  pose proof (calculateDiff_marked differ a b (exact_differ_changed differ a b Hexact Hab)) as H.
  by rewrite E in H.
Qed.

(** With an exact differ no cycle ends in the branch for a diff without
    change, whatever the outside answers. *)
Lemma exact_platform_never_unsubstantive (P : Platform) (net : Outside) (env : Env)
    (w : World) :
  exact_differ (diffLines P) ->
  (handleScheduled P net env w).1 <> NoSubstantiveChange.
Proof.
  intros Hexact. unfold handleScheduled.
  destruct (0 <? length (validateEnv P env)); [by run_task |].
  cbv zeta. rewrite bind_run.
  destruct (withRetry (fetch_attempt net (TARGET_CHANGELOG_URL env)) RETRY_CONFIG w).1
    as [pageContent | message]; [| by run_task].
  rewrite bind_run.
  destruct (KV_get currentKvKey _).1 as [previousMarkdown |]; [| by run_task].
  destruct (String.eqb_spec previousMarkdown (convertToMarkdown P pageContent))
    as [_ | Hne]; [by run_task |].
  destruct (String.eqb_spec
              (calculateDiff (diffLines P) previousMarkdown (convertToMarkdown P pageContent))
              NO_DIFF) as [E | _].
  - by apply (exact_differ_never_quiet _ _ _ Hexact Hne) in E.
  - rewrite !bind_run.
    destruct (getGeminiRecap net _ env _).1 as [recap |]; [| by run_task].
    destruct (truthy recap); by run_task.
Qed.

(** ** The scenarios of the design *)

Example split_nl_trailing : split_nl ("Line3" +:+ nl) = ["Line3"; ""].
Proof. reflexivity. Qed.

Example scenario_diff :
  calculateDiff JsDiff.diffLines ("Line1" +:+ nl +:+ "Line2")
                                 ("Line1" +:+ nl +:+ "Line2" +:+ nl +:+ "Line3")
  = "- Line2" +:+ nl +:+ "+ Line2" +:+ nl +:+ "+ Line3" +:+ nl.
Proof. reflexivity. Qed.

Example scenario_first_then_change :
  let net := all_up ("Line1" +:+ nl +:+ "Line2") "recap" in
  let net' := all_up ("Line1" +:+ nl +:+ "Line2" +:+ nl +:+ "Line3") "recap" in
  let first := handleScheduled plain_platform net example_env empty_world in
  let second := handleScheduled plain_platform net' example_env first.2 in
  detector_result first.1 = NoChange /\
  (KV_get currentKvKey first.2).1 = Some ("Line1" +:+ nl +:+ "Line2") /\
  detector_result second.1
    = ChangeDetected ("- Line2" +:+ nl +:+ "+ Line2" +:+ nl +:+ "+ Line3" +:+ nl) /\
  (KV_get currentKvKey second.2).1 = Some ("Line1" +:+ nl +:+ "Line2" +:+ nl +:+ "Line3").
Proof. repeat split; reflexivity. Qed.

Example tweet_of_long_recap :
  String.length (tweetText (String.concat "" (replicate 150 "ab"))) = 280.
Proof. reflexivity. Qed.
